(** * resume_parser.py: the text-to-record parser (class [ResumeParser])

    A shallow embedding of the parsing half of [resume_parser.py] and the
    properties of it that the specification states.

    Python strings are sequences of Unicode code points; they are modelled
    as lists of code points ([N]).  Python dictionaries keyed by strings are
    finite maps ([gmap]).  Operations of Python that can raise (subscripts of
    lists and dictionaries) are modelled in an error monad, so that "does not
    raise" is a theorem and not a convention. *)

From Stdlib Require Import NArith ZArith Ascii String List Sorting.Sorted.
From stdpp Require Import base tactics option list gmap strings sorting.

Set Default Proof Using "Type".
Local Open Scope N_scope.

(** ** Strings *)

Abbreviation char := N.
Abbreviation str := (list N).

(** An ASCII literal of the source, as a sequence of code points. *)
Definition lit (s : string) : str :=
  List.map N_of_ascii (list_ascii_of_string s).

Definition NEWLINE : char := 10.

(** [str.isspace] of one character, which is also what [str.strip],
    [str.split] without argument and the regular expression class [\s] use. *)
Definition isspace (c : char) : bool :=
  ((9 <=? c) && (c <=? 13)) || ((28 <=? c) && (c <=? 32))
  || (c =? 133) || (c =? 160) || (c =? 5760)
  || ((8192 <=? c) && (c <=? 8202))
  || (c =? 8232) || (c =? 8233) || (c =? 8239) || (c =? 8287) || (c =? 12288).

Definition is_ascii (c : char) : bool := c <? 128.
Definition ascii_digit (c : char) : bool := (48 <=? c) && (c <=? 57).
Definition ascii_upper_letter (c : char) : bool := (65 <=? c) && (c <=? 90).
Definition ascii_lower_letter (c : char) : bool := (97 <=? c) && (c <=? 122).
Definition ascii_letter (c : char) : bool :=
  ascii_upper_letter c || ascii_lower_letter c.
Definition ascii_toupper (c : char) : char :=
  if ascii_lower_letter c then c - 32 else c.
Definition ascii_tolower (c : char) : char :=
  if ascii_upper_letter c then c + 32 else c.

(** The Unicode character database belongs to the Python runtime, not to the
    repository.  On ASCII the tables are fixed and written out below; what
    they say about other characters is a parameter of the development. *)
Record UnicodeDB := {
  uni_decimal : char -> bool;   (* [\d] on a non-ASCII character *)
  uni_word : char -> bool;      (* [\w] on a non-ASCII character *)
  uni_upper : str -> str;       (* [str.upper] of a string that is not ASCII *)
  uni_lower : str -> str        (* [str.lower] of a string that is not ASCII *)
}.

(** A database that knows nothing outside ASCII, to run the parser on
    concrete documents. *)
Definition ascii_only : UnicodeDB :=
  {| uni_decimal := fun _ => false; uni_word := fun _ => false;
     uni_upper := fun s => s; uni_lower := fun s => s |}.

Fixpoint lstrip (s : str) : str :=
  match s with
  | c :: s' => if isspace c then lstrip s' else s
  | [] => []
  end.
Definition rstrip (s : str) : str := rev (lstrip (rev s)).
Definition strip (s : str) : str := rstrip (lstrip s).

Fixpoint startswith (s prefix : str) : bool :=
  match prefix, s with
  | [], _ => true
  | p :: prefix', c :: s' => (c =? p) && startswith s' prefix'
  | _ :: _, [] => false
  end.

Definition endswith_char (s : str) (c : char) : bool :=
  match last s with Some d => d =? c | None => false end.

(** [sub in s] *)
Fixpoint contains (s sub : str) : bool :=
  startswith s sub || match s with [] => false | _ :: s' => contains s' sub end.

(** [s.count(c)] for a one-character [c] *)
Definition count (s : str) (c : char) : nat :=
  length (List.filter (fun d => d =? c) s).

(** [s.split(sep)] and [re.split] for separators of one character: [n]
    separators give [n + 1] pieces, empty ones included. *)
Fixpoint split_on (sep : char -> bool) (s : str) : list str :=
  match s with
  | [] => [[]]
  | c :: s' =>
      if sep c then [] :: split_on sep s'
      else match split_on sep s' with
           | piece :: pieces => (c :: piece) :: pieces
           | [] => [[c]]
           end
  end.

Definition split_lines (s : str) : list str := split_on (N.eqb NEWLINE) s.

(** [s.split()]: the maximal runs of non-whitespace characters. *)
Definition split_ws (s : str) : list str :=
  List.filter (fun w => negb (Nat.eqb (length w) 0)) (split_on isspace s).

(** [sep.join(pieces)] *)
Fixpoint join (sep : str) (pieces : list str) : str :=
  match pieces with
  | [] => []
  | [p] => p
  | p :: rest => p ++ sep ++ join sep rest
  end.

(** [s[1:]] and [s[:-1]] *)
Definition drop_first (s : str) : str := drop 1 s.
Definition drop_last (s : str) : str := take (length s - 1) s.

(** Python's truth value of a string, and of an optional string. *)
Definition nonempty (s : str) : bool := negb (Nat.eqb (length s) 0).
Definition truthy (o : option str) : bool :=
  match o with Some s => nonempty s | None => false end.
(** [o or ''] *)
Definition or_empty (o : option str) : str :=
  match o with Some s => if nonempty s then s else [] | None => [] end.

Local Close Scope N_scope.

(** ** Errors *)

(** The exceptions a subscript can raise, and the fuel guard of the one
    [while] loop. *)
Inductive exn := IndexError | KeyError | OutOfFuel.

Inductive result (A : Type) :=
  | Ok (a : A)
  | Raise (e : exn).
Arguments Ok {A} a.
Arguments Raise {A} e.

Definition bind {A B} (m : result A) (k : A -> result B) : result B :=
  match m with Ok a => k a | Raise e => Raise e end.

Notation "'do' x <- m ; k" := (bind m (fun x => k))
  (at level 10, x name, m at level 100, k at level 200).

(** [l[i]] *)
Definition subscript {A} (l : list A) (i : nat) : result A :=
  match l !! i with Some a => Ok a | None => Raise IndexError end.

(** [d[k]] *)
Definition getitem {V} (d : gmap str V) (k : str) : result V :=
  match d !! k with Some v => Ok v | None => Raise KeyError end.

(** ** Regular expressions

    Every pattern of the parser is a sequence of character classes, each
    with a greedy repetition count.  [re] tries the longest repetition first
    and gives characters back one at a time, which is what is modelled. *)

Record atom := Atom {
  cls : char -> bool;
  rmin : nat;
  rmax : option nat     (* [None]: unbounded *)
}.

Definition one (p : char -> bool) : atom := Atom p 1 (Some 1%nat).
Definition times (n : nat) (p : char -> bool) : atom := Atom p n (Some n).
Definition optional (p : char -> bool) : atom := Atom p 0 (Some 1%nat).
Definition at_least (n : nat) (p : char -> bool) : atom := Atom p n None.
Definition chr (c : char) : char -> bool := N.eqb c.

(** The longest run of characters of the class at the head of [s], no
    longer than the bound. *)
Fixpoint run_length (p : char -> bool) (bound : option nat) (s : str) : nat :=
  match s, bound with
  | _, Some O => O
  | c :: s', Some (S b) => if p c then S (run_length p (Some b) s') else O
  | c :: s', None => if p c then S (run_length p None s') else O
  | [], _ => O
  end.

(** Try the continuation after [n] characters, then after [n - 1], down to
    [lo]; the result is the length of the whole match. *)
Fixpoint give_back (k : str -> option nat) (s : str) (lo n : nat) : option nat :=
  if (n <? lo)%nat then None
  else match k (drop n s), n with
       | Some m, _ => Some (n + m)%nat
       | None, S n' => give_back k s lo n'
       | None, O => None
       end.

(** A match of the whole pattern at the head of [s]; [fin] is what must hold
    of the rest ([$], or nothing). *)
Fixpoint match_here (re : list atom) (fin : str -> bool) (s : str) : option nat :=
  match re with
  | [] => if fin s then Some O else None
  | a :: re' =>
      give_back (match_here re' fin) s (rmin a) (run_length (cls a) (rmax a) s)
  end.

Definition anywhere (rest : str) : bool := true.
(** [$] outside MULTILINE: at the end, or before a newline that ends the
    string. *)
Definition dollar (rest : str) : bool :=
  match rest with
  | [] => true
  | [c] => (c =? NEWLINE)%N
  | _ => false
  end.

(** [re.search(pattern, s)]: the leftmost match; its text is [group(0)]. *)
Fixpoint search (re : list atom) (s : str) : option str :=
  match match_here re anywhere s with
  | Some n => Some (take n s)
  | None => match s with
            | [] => None
            | _ :: s' => search re s'
            end
  end.

(** [re.search] of a pattern written [^(...)$]: only the head of the string
    is tried; the result is [group(1)]. *)
Definition search_anchored (re : list atom) (s : str) : option str :=
  match match_here re dollar s with
  | Some n => Some (take n s)
  | None => None
  end.

(** ** The parser

    Everything from here to the end of the section depends on the Unicode
    tables only through [isdecimal], [isword], [upper] and [lower]. *)

Section Parser.
Context (U : UnicodeDB).

Definition isdecimal (c : char) : bool :=
  if is_ascii c then ascii_digit c else uni_decimal U c.
Definition isword (c : char) : bool :=
  if is_ascii c then ascii_letter c || ascii_digit c || (c =? 95)%N
  else uni_word U c.
Definition upper (s : str) : str :=
  if forallb is_ascii s then List.map ascii_toupper s else uni_upper U s.
Definition lower (s : str) : str :=
  if forallb is_ascii s then List.map ascii_tolower s else uni_lower U s.

(** *** Data model *)

Record JobEntry := {
  company : str;
  position : str;
  period : str;
  description : list str
}.

Record EducationEntry := {
  institution : str;
  degree : str;
  edu_period : str;
  details : list str
}.

Record Certification := { provider : str; certification : str }.

Record Award := { organization : str; award : str }.

(** [self.resume_data]: a dictionary with a fixed set of keys. *)
Record ResumeRecord := {
  name : str;
  contact : gmap string str;
  summary : str;
  experience : list JobEntry;
  education : list EducationEntry;
  skills : gmap str (list str);
  certifications : list Certification;
  honors_awards : list Award
}.

Record ResumeParser := {
  input_file : str;
  content : str;
  resume_data : ResumeRecord
}.

Definition __init__ (input_file : str) : ResumeParser :=
  {| input_file := input_file;
     content := [];
     resume_data :=
       {| name := lit "Your Name";
          contact := ∅;
          summary := [];
          experience := [];
          education := [];
          skills := ∅;
          certifications := [];
          honors_awards := [] |} |}.

(** [load_content], with the text read from the file as an argument. *)
Definition load_content (self : ResumeParser) (text : str) : ResumeParser :=
  {| input_file := input_file self; content := text;
     resume_data := resume_data self |}.

Definition set_resume_data (self : ResumeParser) (d : ResumeRecord) : ResumeParser :=
  {| input_file := input_file self; content := content self; resume_data := d |}.

(** *** Contact information *)

(** [[\w\.-]] and [[\s\.-]] *)
Definition word_dot_hyphen (c : char) : bool :=
  isword c || (c =? 46)%N || (c =? 45)%N.
Definition space_dot_hyphen (c : char) : bool :=
  isspace c || (c =? 46)%N || (c =? 45)%N.
(** [[A-Za-z\s]] *)
Definition letter_or_space (c : char) : bool := ascii_letter c || isspace c.

(** [[\w\.-]+@[\w\.-]+\.\w+] *)
Definition EMAIL_RE : list atom :=
  [at_least 1 word_dot_hyphen; one (chr 64); at_least 1 word_dot_hyphen;
   one (chr 46); at_least 1 isword].

(** [\d{3}[\s\.-]?\d{3}[\s\.-]?\d{4}] *)
Definition PHONE_RE : list atom :=
  [times 3 isdecimal; optional space_dot_hyphen; times 3 isdecimal;
   optional space_dot_hyphen; times 4 isdecimal].

(** [^([A-Za-z\s]+,\s+[A-Za-z\s]{2,})$], between the anchors *)
Definition LOCATION_RE : list atom :=
  [at_least 1 letter_or_space; one (chr 44); at_least 1 isspace;
   at_least 2 letter_or_space].

(** The [for line in top_lines] loop: the first line that matches sets the
    location, and [break] ends the scan. *)
Fixpoint find_location (top_lines : list str) : option str :=
  match top_lines with
  | [] => None
  | line :: rest =>
      let line := strip line in
      match search_anchored LOCATION_RE line with
      | Some g => Some g
      | None => find_location rest
      end
  end.

Definition set_contact (d : ResumeRecord) (c : gmap string str) : ResumeRecord :=
  {| name := name d; contact := c; summary := summary d;
     experience := experience d; education := education d;
     skills := skills d; certifications := certifications d;
     honors_awards := honors_awards d |}.

(** [d[key] = m.group()] if there is a match [m] *)
Definition set_if_found (key : string) (m : option str) (c : gmap string str)
  : gmap string str :=
  match m with Some g => <[key := g]> c | None => c end.

Definition _extract_contact_info (self : ResumeParser) (top_lines : list str)
  : ResumeParser :=
  let top_text := join [NEWLINE] top_lines in
  let email_match := search EMAIL_RE top_text in
  let c := set_if_found "email" email_match (contact (resume_data self)) in
  let phone_match := search PHONE_RE top_text in
  let c := set_if_found "phone" phone_match c in
  let c := set_if_found "location" (find_location top_lines) c in
  set_resume_data self (set_contact (resume_data self) c).

(** *** Experience *)

(** The bullet marker literal of the source.  It is the three code points
    U+201A, U+00C4, U+00A2; the slice [line[1:]] that follows the test drops
    one code point. *)
Definition BULLET : str := [8218; 196; 162]%N.

(** [\d\d/\d\d\d\d] *)
Definition DATE_RE : list atom :=
  [times 2 isdecimal; one (chr 47); times 4 isdecimal].

Definition is_match (m : option str) : bool :=
  match m with Some _ => true | None => false end.

(** [date_match and 'present' in line.lower() or '-' in line and
    line.count('/') >= 2]: in Python [and] binds tighter than [or]. *)
Definition is_date_range (line : str) : bool :=
  let date_match := search DATE_RE line in
  (is_match date_match && contains (lower line) (lit "present"))
  || (contains line (lit "-") && (2 <=? count line 47%N)%nat).

(** The variables of the loop of [_parse_experience]. *)
Record exp_state := {
  st_company : option str;
  st_position : option str;
  st_period : option str;
  st_description : list str;
  st_entries : list JobEntry
}.

Definition exp_init : exp_state :=
  {| st_company := None; st_position := None; st_period := None;
     st_description := []; st_entries := [] |}.

(** The dictionary that is appended to [experience_entries]. *)
Definition job_of (c : str) (st : exp_state) : JobEntry :=
  {| company := c;
     position := or_empty (st_position st);
     period := or_empty (st_period st);
     description := st_description st |}.

(** [len(line.strip().split()) > 2], guarded by [line.strip()] *)
Definition more_than_two_words (line : str) : bool :=
  nonempty (strip line) && (2 <? length (split_ws (strip line)))%nat.

(** The last two branches of the loop body: the first company, or a
    position line, or nothing. *)
Definition fill_slot (line : str) (st : exp_state) : exp_state :=
  if negb (truthy (st_company st)) then
    {| st_company := Some line; st_position := st_position st;
       st_period := st_period st; st_description := st_description st;
       st_entries := st_entries st |}
  else if negb (truthy (st_position st)) then
    {| st_company := st_company st; st_position := Some line;
       st_period := st_period st; st_description := st_description st;
       st_entries := st_entries st |}
  else st.

(** [description.append(item)] *)
Definition add_description (st : exp_state) (item : str) : exp_state :=
  {| st_company := st_company st; st_position := st_position st;
     st_period := st_period st;
     st_description := st_description st ++ [item];
     st_entries := st_entries st |}.

(** [period = line] *)
Definition set_period (st : exp_state) (line : str) : exp_state :=
  {| st_company := st_company st; st_position := st_position st;
     st_period := Some line; st_description := st_description st;
     st_entries := st_entries st |}.

(** The branches after the date test: with a company set and more than two
    words on the line, the current job is saved and the line starts the
    next one; otherwise the line fills a free slot. *)
Definition new_job_or_slot (line : str) (st : exp_state) : exp_state :=
  match st_company st with
  | Some c =>
      if nonempty c && more_than_two_words line then
        {| st_company := Some line; st_position := None; st_period := None;
           st_description := [];
           st_entries := st_entries st ++ [job_of c st] |}
      else fill_slot line st
  | None => fill_slot line st
  end.

(** One pass through the body of the [while] loop, for the line [raw];
    every branch of the body ends in [i += 1]. *)
Definition experience_step (raw : str) (st : exp_state) : exp_state :=
  let line := strip raw in
  if negb (nonempty line) then st
  else if startswith line BULLET then
    add_description st (strip (drop_first line))
  else if is_date_range line then set_period st line
  else new_job_or_slot line st.

(** [while i < len(lines)] *)
Fixpoint experience_loop (fuel : nat) (lines : list str) (i : nat)
  (st : exp_state) : result exp_state :=
  if (i <? length lines)%nat then
    match fuel with
    | O => Raise OutOfFuel
    | S fuel' =>
        do raw <- subscript lines i;
        experience_loop fuel' lines (i + 1) (experience_step raw st)
    end
  else Ok st.

(** The statement after the loop: the last job. *)
Definition last_job (st : exp_state) : list JobEntry :=
  match st_company st with
  | Some c => if nonempty c then st_entries st ++ [job_of c st] else st_entries st
  | None => st_entries st
  end.

Definition _parse_experience (content : str) : result (list JobEntry) :=
  let lines := split_lines content in
  do st <- experience_loop (length lines) lines 0 exp_init;
  Ok (last_job st).

(** *** Education *)

Definition _parse_education (content : str) : list EducationEntry :=
  if nonempty content then
    [ {| institution := lit "Education"; degree := content;
         edu_period := []; details := [] |} ]
  else [].

(** *** Certifications *)

Fixpoint certifications_loop (lines : list str) (current_provider : option str)
  (certifications : list Certification) : list Certification :=
  match lines with
  | [] => certifications
  | line :: rest =>
      let line := strip line in
      if negb (nonempty line) then
        certifications_loop rest current_provider certifications
      else if startswith line BULLET then
        let cert_name := strip (drop_first line) in
        match current_provider with
        | Some p =>
            if nonempty p then
              certifications_loop rest current_provider
                (certifications ++ [ {| provider := p; certification := cert_name |} ])
            else certifications_loop rest current_provider certifications
        | None => certifications_loop rest current_provider certifications
        end
      else certifications_loop rest (Some line) certifications
  end.

Definition _parse_certifications (content : str) : list Certification :=
  certifications_loop (split_lines content) None [].

(** *** Skills *)

(** [re.split(r',|\|', line)] *)
Definition comma_or_pipe (c : char) : bool := (c =? 44)%N || (c =? 124)%N.

(** The inner loop: [skills[current_category].append(skill)] for every
    token that is not blank. *)
Fixpoint add_skills (tokens : list str) (current_category : str)
  (skills : gmap str (list str)) : result (gmap str (list str)) :=
  match tokens with
  | [] => Ok skills
  | skill :: rest =>
      let skill := strip skill in
      if nonempty skill then
        do bucket <- getitem skills current_category;
        add_skills rest current_category
          (<[current_category := bucket ++ [skill]]> skills)
      else add_skills rest current_category skills
  end.

(** [if current_category not in skills: skills[current_category] = []] *)
Definition ensure_bucket (current_category : str) (skills : gmap str (list str))
  : gmap str (list str) :=
  match skills !! current_category with
  | None => <[current_category := []]> skills
  | Some _ => skills
  end.

Fixpoint skills_loop (lines : list str) (current_category : str)
  (skills : gmap str (list str)) : result (gmap str (list str)) :=
  match lines with
  | [] => Ok skills
  | line :: rest =>
      let line := strip line in
      if negb (nonempty line) then skills_loop rest current_category skills
      else if endswith_char line 58%N then
        let current_category := strip (drop_last line) in
        skills_loop rest current_category (<[current_category := []]> skills)
      else
        let skills := ensure_bucket current_category skills in
        do skills <- add_skills (split_on comma_or_pipe line) current_category skills;
        skills_loop rest current_category skills
  end.

Definition _parse_skills (content : str) : result (gmap str (list str)) :=
  skills_loop (split_lines content) (lit "General") ∅.

(** *** Honors and awards *)

Fixpoint honors_awards_loop (lines : list str) (current_org : option str)
  (awards : list Award) : list Award :=
  match lines with
  | [] => awards
  | line :: rest =>
      let line := strip line in
      if negb (nonempty line) then honors_awards_loop rest current_org awards
      else if startswith line BULLET then
        let award_name := strip (drop_first line) in
        match current_org with
        | Some o =>
            if nonempty o then
              honors_awards_loop rest current_org
                (awards ++ [ {| organization := o; award := award_name |} ])
            else honors_awards_loop rest current_org awards
        | None => honors_awards_loop rest current_org awards
        end
      else honors_awards_loop rest (Some line) awards
  end.

Definition _parse_honors_awards (content : str) : list Award :=
  honors_awards_loop (split_lines content) None [].

(** *** Section segmenter *)

Definition SUMMARY : str := lit "SUMMARY".
Definition EXPERIENCE : str := lit "EXPERIENCE".
Definition EDUCATION : str := lit "EDUCATION".
Definition CERTIFICATIONS : str := lit "CERTIFICATIONS".
Definition SKILLS : str := lit "SKILLS".
Definition HONORS_AND_AWARDS : str := lit "HONORS AND AWARDS".

(** The dictionary [section_headers], in the order of its keys. *)
Definition section_headers_init : list (str * Z) :=
  [(SUMMARY, -1); (EXPERIENCE, -1); (EDUCATION, -1); (CERTIFICATIONS, -1);
   (SKILLS, -1); (HONORS_AND_AWARDS, -1)]%Z.

(** [section_headers[header] = i], for a key of the dictionary *)
Definition set_position (header : str) (i : Z) (section_headers : list (str * Z))
  : list (str * Z) :=
  List.map (fun kv => if bool_decide (kv.1 = header) then (kv.1, i) else kv)
    section_headers.

(** The body of [for i, line in enumerate(lines)] *)
Definition scan_line (i : nat) (line : str) (section_headers : list (str * Z))
  : list (str * Z) :=
  let line := upper (strip line) in
  fold_left
    (fun sh header =>
       if bool_decide (line = header) then set_position header (Z.of_nat i) sh
       else sh)
    (List.map fst section_headers) section_headers.

Fixpoint scan_lines (lines : list str) (i : nat) (section_headers : list (str * Z))
  : list (str * Z) :=
  match lines with
  | [] => section_headers
  | line :: rest => scan_lines rest (S i) (scan_line i line section_headers)
  end.

(** [[(pos, header) for header, pos in section_headers.items() if pos >= 0]] *)
Definition found_headers (section_headers : list (str * Z)) : list (Z * str) :=
  List.map (fun kv => (kv.2, kv.1))
    (List.filter (fun kv => (0 <=? kv.2)%Z) section_headers).

(** The order of Python on strings and on pairs, which [sorted] uses. *)
Fixpoint str_leb (a b : str) : bool :=
  match a, b with
  | [], _ => true
  | _ :: _, [] => false
  | x :: a', y :: b' => (x <? y)%N || ((x =? y)%N && str_leb a' b')
  end.
Definition tuple_leb (p q : Z * str) : bool :=
  (p.1 <? q.1)%Z || ((p.1 =? q.1)%Z && str_leb p.2 q.2).
Definition tuple_le (p q : Z * str) : Prop := tuple_leb p q = true.

#[local] Instance tuple_le_dec p q : Decision (tuple_le p q) :=
  bool_eq_dec (tuple_leb p q) true.

Definition sorted (l : list (Z * str)) : list (Z * str) := merge_sort tuple_le l.

(** [lines[start:end]] for bounds that are not negative *)
Definition slice {A} (l : list A) (start end_ : Z) : list A :=
  take (Z.to_nat end_ - Z.to_nat start) (drop (Z.to_nat start) l).

(** [section_lines], joined: the lines of [lines[start:end]] that are not
    blank. *)
Definition section_text (lines : list str) (start end_ : Z) : str :=
  let section_lines :=
    List.filter (fun line => nonempty (strip line)) (slice lines start end_) in
  join [NEWLINE] section_lines.

(** [for i, (pos, header) in enumerate(headers_list)]; [todo] is what is
    left of the list. *)
Fixpoint sections_loop (headers_list : list (Z * str)) (lines : list str)
  (i : nat) (todo : list (Z * str)) (sections : gmap str str)
  : result (gmap str str) :=
  match todo with
  | [] => Ok sections
  | (pos, header) :: todo' =>
      let start := (pos + 1)%Z in
      do end_ <-
        (if (Z.of_nat i <? Z.of_nat (length headers_list) - 1)%Z then
           do next <- subscript headers_list (i + 1);
           Ok next.1
         else Ok (Z.of_nat (length lines)));
      sections_loop headers_list lines (S i) todo'
        (<[header := section_text lines start end_]> sections)
  end.

Definition extract_sections (content : str) : result (gmap str str) :=
  let lines := split_lines content in
  let section_headers := scan_lines lines 0 section_headers_init in
  let headers_list := sorted (found_headers section_headers) in
  sections_loop headers_list lines 0 headers_list ∅.

Definition set_summary (d : ResumeRecord) (v : str) : ResumeRecord :=
  {| name := name d; contact := contact d; summary := v;
     experience := experience d; education := education d;
     skills := skills d; certifications := certifications d;
     honors_awards := honors_awards d |}.
Definition set_experience (d : ResumeRecord) (v : list JobEntry) : ResumeRecord :=
  {| name := name d; contact := contact d; summary := summary d;
     experience := v; education := education d;
     skills := skills d; certifications := certifications d;
     honors_awards := honors_awards d |}.
Definition set_education (d : ResumeRecord) (v : list EducationEntry) : ResumeRecord :=
  {| name := name d; contact := contact d; summary := summary d;
     experience := experience d; education := v;
     skills := skills d; certifications := certifications d;
     honors_awards := honors_awards d |}.
Definition set_certifications (d : ResumeRecord) (v : list Certification) : ResumeRecord :=
  {| name := name d; contact := contact d; summary := summary d;
     experience := experience d; education := education d;
     skills := skills d; certifications := v;
     honors_awards := honors_awards d |}.
Definition set_skills (d : ResumeRecord) (v : gmap str (list str)) : ResumeRecord :=
  {| name := name d; contact := contact d; summary := summary d;
     experience := experience d; education := education d;
     skills := v; certifications := certifications d;
     honors_awards := honors_awards d |}.
Definition set_honors_awards (d : ResumeRecord) (v : list Award) : ResumeRecord :=
  {| name := name d; contact := contact d; summary := summary d;
     experience := experience d; education := education d;
     skills := skills d; certifications := certifications d;
     honors_awards := v |}.
Definition set_name (d : ResumeRecord) (v : str) : ResumeRecord :=
  {| name := v; contact := contact d; summary := summary d;
     experience := experience d; education := education d;
     skills := skills d; certifications := certifications d;
     honors_awards := honors_awards d |}.

(** [if key in sections: ... sections[key] ...] *)
Definition when_section {A : Type} (sections : gmap str str) (key : str)
  (d : A) (f : str -> result A) : result A :=
  match sections !! key with
  | Some text => f text
  | None => Ok d
  end.

Definition _extract_all_sections (self : ResumeParser) : result ResumeParser :=
  do sections <- extract_sections (content self);
  let d := resume_data self in
  do d <- when_section sections SUMMARY d (fun text => Ok (set_summary d text));
  do d <- when_section sections EXPERIENCE d (fun text =>
            do jobs <- _parse_experience text; Ok (set_experience d jobs));
  do d <- when_section sections EDUCATION d (fun text =>
            Ok (set_education d (_parse_education text)));
  do d <- when_section sections CERTIFICATIONS d (fun text =>
            Ok (set_certifications d (_parse_certifications text)));
  do d <- when_section sections SKILLS d (fun text =>
            do sk <- _parse_skills text; Ok (set_skills d sk));
  do d <- when_section sections HONORS_AND_AWARDS d (fun text =>
            Ok (set_honors_awards d (_parse_honors_awards text)));
  Ok (set_resume_data self d).

(** *** [parse] *)

(** [if lines and lines[0].strip(): self.resume_data['name'] = lines[0].strip()] *)
Definition extract_name (self : ResumeParser) (lines : list str)
  : result ResumeParser :=
  match lines with
  | [] => Ok self
  | _ :: _ =>
      do first <- subscript lines 0;
      if nonempty (strip first) then
        Ok (set_resume_data self (set_name (resume_data self) (strip first)))
      else Ok self
  end.

(** [parse] returns [self.resume_data]; the parser after the call is
    returned here, and its [resume_data] is the value of the call. *)
Definition parse (self : ResumeParser) : result ResumeParser :=
  let lines := split_lines (content self) in
  do self <- extract_name self lines;
  let self := _extract_contact_info self (take 10 lines) in
  _extract_all_sections self.

(** A fresh parser, loaded with [text], and parsed. *)
Definition parse_text (text : str) : result ResumeRecord :=
  do self <- parse (load_content (__init__ (lit "resume.txt")) text);
  Ok (resume_data self).

(** *** Functions in which the properties are stated *)

(** The line is the header [h]: it is [h] once trimmed and upper-cased. *)
Definition is_header (h line : str) : bool :=
  bool_decide (upper (strip line) = h).

(** The index of the last line of [lines] that is the header [h], the
    first line having the index [i]. *)
Fixpoint last_occurrence (h : str) (lines : list str) (i : nat) : option nat :=
  match lines with
  | [] => None
  | line :: rest =>
      match last_occurrence h rest (S i) with
      | Some j => Some j
      | None => if is_header h line then Some i else None
      end
  end.

(** The six header literals, the keys of [section_headers]. *)
Definition HEADERS : list str :=
  [SUMMARY; EXPERIENCE; EDUCATION; CERTIFICATIONS; SKILLS; HONORS_AND_AWARDS].

(** What the scan of [lines] leaves in an entry of [section_headers]. *)
Definition locate (lines : list str) (i : nat) (kv : str * Z) : str * Z :=
  match last_occurrence kv.1 lines i with
  | Some j => (kv.1, Z.of_nat j)
  | None => kv
  end.

(** Where the span of a header ends, [todo] being the headers after it. *)
Definition next_pos (todo : list (Z * str)) (lines : list str) : Z :=
  match todo with
  | (pos, _) :: _ => pos
  | [] => Z.of_nat (length lines)
  end.

(** The sections that the loop over [headers_list] builds. *)
Fixpoint assign (lines : list str) (todo : list (Z * str))
  (sections : gmap str str) : gmap str str :=
  match todo with
  | [] => sections
  | (pos, header) :: todo' =>
      assign lines todo'
        (<[header := section_text lines (pos + 1) (next_pos todo' lines)]> sections)
  end.

(** A line that a provider or an organization has to precede to count: a
    bullet line, or a blank one. *)
Definition bullet_or_blank (line : str) : bool :=
  negb (nonempty (strip line)) || startswith (strip line) BULLET.

(** The line is the header of the skill category [k]. *)
Definition names_category (k line : str) : bool :=
  endswith_char (strip line) 58%N
  && bool_decide (strip (drop_last (strip line)) = k).

(** The line contains two digits, a slash and four digits. *)
Definition has_mm_yyyy (line : str) : Prop :=
  ∃ pre mm yyyy post,
    line = pre ++ mm ++ [47%N] ++ yyyy ++ post
    ∧ length mm = 2 ∧ length yyyy = 4
    ∧ Forall (fun c => isdecimal c = true) mm
    ∧ Forall (fun c => isdecimal c = true) yyyy.

(** The line contains "present", whatever the case of its letters. *)
Definition has_present (line : str) : Prop :=
  ∃ pre post, lower line = pre ++ lit "present" ++ post.

(** The EXPERIENCE section of the specification's example, its two bullet
    lines starting with [marker]. *)
Definition experience_example (marker : str) : str :=
  join [NEWLINE]
    [lit "Acme Corp"; lit "Senior Engineer"; lit "01/2020 - present";
     marker ++ lit " Built the thing";
     marker ++ lit " Shipped the other thing";
     lit "Beta Inc"; lit "Engineer"].

(** The contact block of the specification's example. *)
Definition contact_example : list str :=
  [lit "jane@x.com"; lit "555-123-4567"; lit "Austin, TX"].

(** What the extraction finds in the example. *)
Definition contact_example_found : gmap string str :=
  {[ "email" := lit "jane@x.com"; "phone" := lit "555-123-4567";
     "location" := lit "Austin, TX" ]}.

(** The part of the joined block that comes before one of its lines: the
    lines before it, each with the newline that follows it. *)
Definition text_before (pre : list str) : str := join [NEWLINE] (pre ++ [[]]).

(** No match of the pattern starts in the first [n] positions of [s]. *)
Definition no_match_before (re : list atom) (s : str) (n : nat) : Prop :=
  ∀ k, k < n → match_here re anywhere (drop k s) = None.

(** The sections of a document, as [sections_loop] leaves them. *)
Definition sections_of (content : str) : gmap str str :=
  let lines := split_lines content in
  assign lines
    (sorted (found_headers (scan_lines lines 0 section_headers_init))) ∅.

(** The jobs and the skills of a section text, outside the error monad. *)
Definition jobs_of (text : str) : list JobEntry :=
  last_job (fold_left (fun st raw => experience_step raw st)
              (split_lines text) exp_init).
Definition skills_of (text : str) : gmap str (list str) :=
  match _parse_skills text with Ok sk => sk | Raise _ => ∅ end.

(** The contact dictionary after [_extract_contact_info]. *)
Definition contact_of (top_lines : list str) (c : gmap string str)
  : gmap string str :=
  let top_text := join [NEWLINE] top_lines in
  set_if_found "location" (find_location top_lines)
    (set_if_found "phone" (search PHONE_RE top_text)
       (set_if_found "email" (search EMAIL_RE top_text) c)).

(** The name after the first statement of [parse]. *)
Definition name_of (lines : list str) (n : str) : str :=
  match lines with
  | first :: _ => if nonempty (strip first) then strip first else n
  | [] => n
  end.

(** The record that [parse] leaves in a parser that holds [text] and the
    record [d]. *)
Definition parsed_record (text : str) (d : ResumeRecord) : ResumeRecord :=
  let lines := split_lines text in
  let sections := sections_of text in
  {| name := name_of lines (name d);
     contact := contact_of (take 10 lines) (contact d);
     summary := default (summary d) (sections !! SUMMARY);
     experience := default (experience d) (jobs_of <$> sections !! EXPERIENCE);
     education :=
       default (education d) (_parse_education <$> sections !! EDUCATION);
     skills := default (skills d) (skills_of <$> sections !! SKILLS);
     certifications :=
       default (certifications d)
         (_parse_certifications <$> sections !! CERTIFICATIONS);
     honors_awards :=
       default (honors_awards d)
         (_parse_honors_awards <$> sections !! HONORS_AND_AWARDS) |}.

(** *** The lines of the experience loop, by the branch that takes them *)

(** A bullet line, and the item that the loop stores for it. *)
Definition is_bullet (raw : str) : bool := startswith (strip raw) BULLET.
Definition bullet_item (raw : str) : str := strip (drop_first (strip raw)).

(** A line that is neither blank, nor a bullet, nor a date range: it is
    read as a company or as a position, or ignored. *)
Definition is_plain_line (raw : str) : bool :=
  nonempty (strip raw) && negb (startswith (strip raw) BULLET)
  && negb (is_date_range (strip raw)).

(** A plain line of more than two words. *)
Definition is_long_line (raw : str) : bool :=
  is_plain_line raw && more_than_two_words (strip raw).


(** A string made of a sequence of runs, one for each atom of the pattern,
    each run in the class of its atom and within its bounds. *)
Fixpoint in_lang (re : list atom) (g : str) : Prop :=
  match re with
  | [] => g = []
  | a :: re' =>
      ∃ run rest,
        g = run ++ rest
        ∧ rmin a ≤ length run
        ∧ (∀ b, rmax a = Some b → length run ≤ b)
        ∧ Forall (fun c => cls a c = true) run
        ∧ in_lang re' rest
  end.

(** Every description item held by the loop: those of the saved jobs, then
    those of the current one. *)
Definition all_descriptions (st : exp_state) : list str :=
  List.concat (List.map description (st_entries st)) ++ st_description st.

End Parser.

(** * The generator (class [ResumeGenerator])

    The methods that turn the parts of [resume_data] into HTML, one part
    each.  [''.join(items)] is the concatenation of the items. *)

Definition DQUOTE : str := [34%N].

(** [f"<li>{item}</li>"] *)
Definition li (item : str) : str :=
  lit "<li>"
    ++ item
    ++ lit "</li>".

(** The four entries of [_generate_contact_info]. *)
Definition email_item (email : str) : str :=
  lit "<div class=" ++ DQUOTE ++ lit "contact-item" ++ DQUOTE ++ lit ">" ++ [63743; 252; 236; 223]%N ++ lit " <a href=" ++ DQUOTE ++ lit "mailto:"
    ++ email
    ++ DQUOTE ++ lit ">"
    ++ email
    ++ lit "</a></div>".
Definition phone_item (phone : str) : str :=
  lit "<div class=" ++ DQUOTE ++ lit "contact-item" ++ DQUOTE ++ lit ">" ++ [63743; 252; 236; 177]%N ++ lit " "
    ++ phone
    ++ lit "</div>".
Definition linkedin_item (linkedin_url linkedin : str) : str :=
  lit "<div class=" ++ DQUOTE ++ lit "contact-item" ++ DQUOTE ++ lit ">" ++ [63743; 252; 237; 186]%N ++ lit " <a href=" ++ DQUOTE
    ++ linkedin_url
    ++ DQUOTE ++ lit " target=" ++ DQUOTE ++ lit "_blank" ++ DQUOTE ++ lit ">"
    ++ linkedin
    ++ lit "</a></div>".
Definition location_item (location : str) : str :=
  lit "<div class=" ++ DQUOTE ++ lit "contact-item" ++ DQUOTE ++ lit ">" ++ [63743; 252; 236; 231]%N ++ lit " "
    ++ location
    ++ lit "</div>".

(** [if d.get(key): items.append(item)]: an absent key and an empty value
    add nothing. *)
Definition append_if (value : option str) (item : str -> str)
  (items : list str) : list str :=
  match value with
  | Some v => if nonempty v then items ++ [item v] else items
  | None => items
  end.

(** The address of the LinkedIn link: [https://] is put before a value that
    does not start with [http]. *)
Definition linkedin_href (linkedin : str) : str :=
  if negb (startswith linkedin (lit "http")) then
    lit "https://"
    ++ linkedin
  else linkedin.

Definition _generate_contact_info (data : ResumeRecord) : str :=
  let contact_items := [] in
  let contact_items := append_if (contact data !! "email") email_item contact_items in
  let contact_items := append_if (contact data !! "phone") phone_item contact_items in
  let contact_items :=
    append_if (contact data !! "linkedin")
      (fun linkedin => linkedin_item (linkedin_href linkedin) linkedin)
      contact_items in
  let contact_items :=
    append_if (contact data !! "location") location_item contact_items in
  List.concat contact_items.

Definition _generate_summary (data : ResumeRecord) : str :=
  if negb (nonempty (summary data)) then []
  else
    lit "<div class=" ++ DQUOTE ++ lit "section" ++ DQUOTE ++ lit ">
        <h2 class=" ++ DQUOTE ++ lit "section-title" ++ DQUOTE ++ lit ">Professional Summary</h2>
        <div class=" ++ DQUOTE ++ lit "summary" ++ DQUOTE ++ lit ">
            <p>"
    ++ summary data
    ++ lit "</p>
        </div>
    </div>".

(** [description_html] and [details_html]: a list of the items, or nothing
    when there is none. *)
Definition items_html (items : list str) : str :=
  match items with
  | [] => []
  | _ :: _ =>
      lit "<ul>"
    ++ List.concat (List.map li items)
    ++ lit "</ul>"
  end.

Definition experience_entry (job : JobEntry) : str :=
  let description_html := items_html (description job) in
  lit "<div class=" ++ DQUOTE ++ lit "entry" ++ DQUOTE ++ lit ">
                <div class=" ++ DQUOTE ++ lit "entry-header" ++ DQUOTE ++ lit ">
                    <div class=" ++ DQUOTE ++ lit "company" ++ DQUOTE ++ lit ">"
    ++ company job
    ++ lit "</div>
                    <div class=" ++ DQUOTE ++ lit "period" ++ DQUOTE ++ lit ">"
    ++ period job
    ++ lit "</div>
                </div>
                <div class=" ++ DQUOTE ++ lit "position" ++ DQUOTE ++ lit ">"
    ++ position job
    ++ lit "</div>
                "
    ++ description_html
    ++ lit "
            </div>".

Definition _generate_experience (data : ResumeRecord) : str :=
  match experience data with
  | [] => lit "<p>No work experience provided</p>"
  | _ :: _ => List.concat (List.map experience_entry (experience data))
  end.

Definition education_entry (edu : EducationEntry) : str :=
  let details_html := items_html (details edu) in
  lit "<div class=" ++ DQUOTE ++ lit "entry" ++ DQUOTE ++ lit ">
                <div class=" ++ DQUOTE ++ lit "entry-header" ++ DQUOTE ++ lit ">
                    <div class=" ++ DQUOTE ++ lit "institution" ++ DQUOTE ++ lit ">"
    ++ institution edu
    ++ lit "</div>
                    <div class=" ++ DQUOTE ++ lit "period" ++ DQUOTE ++ lit ">"
    ++ edu_period edu
    ++ lit "</div>
                </div>
                <div class=" ++ DQUOTE ++ lit "degree" ++ DQUOTE ++ lit ">"
    ++ degree edu
    ++ lit "</div>
                "
    ++ details_html
    ++ lit "
            </div>".

Definition _generate_education (data : ResumeRecord) : str :=
  match education data with
  | [] => []
  | _ :: _ =>
      List.concat
        ([lit "<div class='section'>"; lit "<h2 class='section-title'>Education</h2>"]
         ++ List.map education_entry (education data)
         ++ [lit "</div>"])
  end.

(** *** Grouping by provider and by organization

    [providers] and [orgs] are dictionaries from a name to a list; a
    dictionary of Python keeps its keys in the order of their insertion,
    which is the order of the groups in the page. *)

Definition od_contains (k : str) (d : list (str * list str)) : bool :=
  existsb (fun kv => bool_decide (kv.1 = k)) d.

(** [d[k] = v]: in place for a key of [d], at the end for a new key *)
Definition od_set (k : str) (v : list str) (d : list (str * list str))
  : list (str * list str) :=
  if od_contains k d then
    List.map (fun kv => if bool_decide (kv.1 = k) then (kv.1, v) else kv) d
  else d ++ [(k, v)].

(** [d[k]] *)
Definition od_get (k : str) (d : list (str * list str)) : result (list str) :=
  match List.find (fun kv => bool_decide (kv.1 = k)) d with
  | Some kv => Ok kv.2
  | None => Raise KeyError
  end.

(** The loop of both methods, over the pairs of a name and an item:
    [if name not in d: d[name] = []] and [d[name].append(item)]. *)
Fixpoint group_loop (pairs : list (str * str)) (d : list (str * list str))
  : result (list (str * list str)) :=
  match pairs with
  | [] => Ok d
  | (name, item) :: rest =>
      let d := if negb (od_contains name d) then od_set name [] d else d in
      do bucket <- od_get name d;
      group_loop rest (od_set name (bucket ++ [item]) d)
  end.

Definition cert_group (group : str * list str) : str :=
  let provider := group.1 in
  let cert_items := List.concat (List.map li group.2) in
  lit "<div class=" ++ DQUOTE ++ lit "cert-group" ++ DQUOTE ++ lit ">
                <div class=" ++ DQUOTE ++ lit "cert-provider" ++ DQUOTE ++ lit ">"
    ++ provider
    ++ lit "</div>
                <ul>"
    ++ cert_items
    ++ lit "</ul>
            </div>".

(** A [Certification] always has its provider, so the default of
    [cert.get('provider', 'Other')] is not reached; likewise for the
    organization of an [Award]. *)
Definition _generate_certifications (data : ResumeRecord) : result str :=
  match certifications data with
  | [] => Ok []
  | _ :: _ =>
      do providers <-
        group_loop
          (List.map (fun cert => (provider cert, certification cert))
             (certifications data)) [];
      Ok (List.concat
            ([lit "<div class='section'>";
              lit "<h2 class='section-title'>Certifications</h2>"]
             ++ List.map cert_group providers
             ++ [lit "</div>"]))
  end.

Definition award_group (group : str * list str) : str :=
  let org := group.1 in
  let award_items := List.concat (List.map li group.2) in
  lit "<div class=" ++ DQUOTE ++ lit "award-group" ++ DQUOTE ++ lit ">
                <div class=" ++ DQUOTE ++ lit "award-org" ++ DQUOTE ++ lit ">"
    ++ org
    ++ lit "</div>
                <ul>"
    ++ award_items
    ++ lit "</ul>
            </div>".

Definition _generate_honors_awards (data : ResumeRecord) : result str :=
  match honors_awards data with
  | [] => Ok []
  | _ :: _ =>
      do orgs <-
        group_loop
          (List.map (fun a => (organization a, award a)) (honors_awards data)) [];
      Ok (List.concat
            ([lit "<div class='section'>";
              lit "<h2 class='section-title'>Honors and Awards</h2>"]
             ++ List.map award_group orgs
             ++ [lit "</div>"]))
  end.

(** *** Functions in which the properties of the generator are stated *)

(** The item of a contact detail: nothing when the record has no value for
    the key, or an empty one. *)
Definition contact_part (data : ResumeRecord) (key : string)
  (item : str -> str) : str :=
  match contact data !! key with
  | Some v => if nonempty v then item v else []
  | None => []
  end.

(** The distinct elements of a list, in the order of their first
    occurrences. *)
Fixpoint first_occurrences (l : list str) : list str :=
  match l with
  | [] => []
  | x :: l' =>
      x :: List.filter (fun y => negb (bool_decide (y = x))) (first_occurrences l')
  end.

(** The items paired with [name], in their order. *)
Definition items_of (name : str) (pairs : list (str * str)) : list str :=
  List.map snd (List.filter (fun kv => bool_decide (kv.1 = name)) pairs).

(** One group for each distinct name, in the order of the first
    occurrences, with the items of the name in their order. *)
Definition grouped (pairs : list (str * str)) : list (str * list str) :=
  List.map (fun name => (name, items_of name pairs))
    (first_occurrences (List.map fst pairs)).

(** * Properties

    Each part below ends with the claims of the specification, C1 to C10,
    that it settles. *)

(** ** Strings and lists *)

Lemma split_on_not_nil sep s : split_on sep s ≠ [].
Proof.
  destruct s as [|c s]; simpl; [done|].
  destruct (sep c); [done|]. by destruct (split_on sep s).
Qed.

(** Splitting distributes over a separator between two texts. *)
Lemma split_on_app sep a c b :
  sep c = true →
  split_on sep (a ++ c :: b) = split_on sep a ++ split_on sep b.
Proof.
  intros Hc. induction a as [|x a IH]; simpl.
  - by rewrite Hc.
  - rewrite IH. destruct (sep x); [done|].
    pose proof (split_on_not_nil sep a).
    by destruct (split_on sep a).
Qed.

Lemma split_lines_app a b :
  split_lines (a ++ NEWLINE :: b) = split_lines a ++ split_lines b.
Proof. apply split_on_app. reflexivity. Qed.

Lemma split_lines_length_pos s : (0 < length (split_lines s))%nat.
Proof.
  pose proof (split_on_not_nil (N.eqb NEWLINE) s).
  unfold split_lines. destruct (split_on _ s); [done | simpl; lia].
Qed.

Lemma startswith_spec s p :
  startswith s p = true ↔ ∃ rest, s = p ++ rest.
Proof.
  revert s. induction p as [|x p IH]; intros s; simpl.
  - split; [intros _; by exists s | by destruct s].
  - destruct s as [|c s].
    + split; [done | intros [rest H]; discriminate].
    + simpl. destruct (N.eqb_spec c x) as [->|Hne]; simpl.
      * rewrite IH. split.
        -- intros [rest ->]. eauto.
        -- intros [rest H]. injection H as ->. eauto.
      * split; [done|]. intros [rest H]. injection H as -> _. done.
Qed.

(** [sub in s] holds exactly when [sub] is a substring of [s]. *)
Lemma contains_spec s sub :
  contains s sub = true ↔ ∃ pre post, s = pre ++ sub ++ post.
Proof.
  induction s as [|c s IH].
  - cbn [contains]. rewrite orb_false_r, startswith_spec. split.
    + intros [rest H]. exists [], rest. done.
    + intros (pre & post & H). destruct pre; [|discriminate].
      simpl in H. eauto.
  - cbn [contains]. rewrite orb_true_iff, startswith_spec, IH. split.
    + intros [[rest H] | (pre & post & H)].
      * exists [], rest. done.
      * exists (c :: pre), post. by rewrite H.
    + intros (pre & post & H). destruct pre as [|x pre].
      * left. eauto.
      * right. injection H as -> ->. eauto.
Qed.

Lemma nonempty_true s : nonempty s = true ↔ s ≠ [].
Proof. destruct s; simpl; split; (done || congruence). Qed.

Lemma subscript_lookup {A} (l : list A) i x :
  l !! i = Some x → subscript l i = Ok x.
Proof. unfold subscript. by intros ->. Qed.

Section Properties.
Context (U : UnicodeDB).

(** ** The loop of [_parse_experience] *)

(** With fuel for the lines that are left, the [while] loop ends, raises
    nothing, and is the left fold of its body over those lines. *)
Lemma experience_loop_fold fuel lines i st :
  (length lines - i ≤ fuel)%nat →
  experience_loop U fuel lines i st
  = Ok (fold_left (fun st raw => experience_step U raw st) (drop i lines) st).
Proof.
  revert i st. induction fuel as [|fuel IH]; intros i st Hfuel; simpl.
  - destruct (Nat.ltb_spec i (length lines)); [lia|].
    by rewrite drop_ge by lia.
  - destruct (Nat.ltb_spec i (length lines)) as [Hi|Hi].
    + destruct (lookup_lt_is_Some_2 lines i Hi) as [raw Hraw].
      rewrite (subscript_lookup _ _ _ Hraw). simpl.
      rewrite IH by lia. rewrite (drop_S _ _ _ Hraw). simpl.
      by rewrite Nat.add_1_r.
    + by rewrite drop_ge by lia.
Qed.

Lemma parse_experience_fold content :
  _parse_experience U content
  = Ok (last_job (fold_left (fun st raw => experience_step U raw st)
                    (split_lines content) exp_init)).
Proof.
  unfold _parse_experience. rewrite experience_loop_fold by lia. done.
Qed.

(** ** The loop of [_parse_skills] *)

Lemma add_skills_ok (tokens : list str) (cat : str) (skills : gmap str (list str)) :
  is_Some (skills !! cat) →
  ∃ skills', add_skills tokens cat skills = Ok skills'
             ∧ is_Some (skills' !! cat).
Proof.
  revert skills. induction tokens as [|t tokens IH]; intros skills Hcat; simpl.
  - eauto.
  - destruct (nonempty (strip t)); [|by apply IH].
    unfold getitem. destruct Hcat as [bucket ->]. simpl.
    apply IH. rewrite lookup_insert_eq. eauto.
Qed.

Lemma ensure_bucket_is_Some (cat : str) (skills : gmap str (list str)) :
  is_Some (ensure_bucket cat skills !! cat).
Proof.
  unfold ensure_bucket. destruct (skills !! cat) eqn:E.
  - rewrite E. eauto.
  - rewrite lookup_insert_eq. eauto.
Qed.

Lemma skills_loop_ok (lines : list str) (cat : str) (skills : gmap str (list str)) :
  ∃ skills', skills_loop lines cat skills = Ok skills'.
Proof.
  revert cat skills. induction lines as [|l lines IH]; intros cat skills; simpl.
  - eauto.
  - destruct (nonempty (strip l)); simpl; [|apply IH].
    destruct (endswith_char (strip l) 58); [apply IH|].
    destruct (add_skills_ok (split_on comma_or_pipe (strip l)) cat
                (ensure_bucket cat skills)) as (skills' & -> & _).
    { apply ensure_bucket_is_Some. }
    simpl. apply IH.
Qed.

Lemma parse_skills_ok content : ∃ skills', _parse_skills content = Ok skills'.
Proof. apply skills_loop_ok. Qed.


Lemma add_skills_grows (tokens : list str) (cat : str)
  (skills skills' : gmap str (list str)) (k : str) (l : list str) :
  add_skills tokens cat skills = Ok skills' →
  skills !! k = Some l →
  ∃ l', skills' !! k = Some (l ++ l').
Proof.
  revert skills l. induction tokens as [|t tokens IH]; intros skills l; simpl.
  - intros [= <-] Hk. exists []. by rewrite app_nil_r.
  - destruct (nonempty (strip t)); [|by apply IH].
    unfold getitem. destruct (skills !! cat) as [bucket|] eqn:Hcat; [|done].
    simpl. intros Hrest Hk. destruct (decide (cat = k)) as [->|Hne].
    + assert (bucket = l) as -> by congruence.
      destruct (IH _ (l ++ [strip t]) Hrest) as [l' Hl'].
      { by rewrite lookup_insert_eq. }
      exists (strip t :: l'). rewrite Hl'. by rewrite <- app_assoc.
    + apply (IH _ l Hrest). by rewrite lookup_insert_ne.
Qed.

(** X6.  What the code keeps of the append-only reading: the bucket of a
    category only grows over the lines that are not a header of that very
    category. *)
Lemma skills_loop_grows (lines : list str) (cat : str)
  (skills skills' : gmap str (list str)) (k : str) (l : list str) :
  skills_loop lines cat skills = Ok skills' →
  skills !! k = Some l →
  Forall (fun line => names_category k line = false) lines →
  ∃ l', skills' !! k = Some (l ++ l').
Proof.
  intros Hloop Hk Hlines. revert cat skills l Hloop Hk.
  induction Hlines as [|line lines Hline _ IH]; intros cat skills l; simpl.
  - intros [= <-] Hk. exists []. by rewrite app_nil_r.
  - unfold names_category in Hline.
    destruct (nonempty (strip line)); simpl; [|by apply IH].
    destruct (endswith_char (strip line) 58) eqn:Hcolon; simpl in Hline.
    + apply bool_decide_eq_false in Hline.
      intros Hloop Hk. apply (IH _ _ l Hloop). by rewrite lookup_insert_ne.
    + destruct (add_skills _ cat (ensure_bucket cat skills)) as [skills1|] eqn:Hadd;
        [|done].
      simpl. intros Hloop Hk.
      assert (ensure_bucket cat skills !! k = Some l) as Hk'.
      { unfold ensure_bucket. destruct (skills !! cat) eqn:Hcat; [done|].
        rewrite lookup_insert_ne; [done | congruence]. }
      destruct (add_skills_grows _ _ _ _ _ _ Hadd Hk') as [l1 Hl1].
      destruct (IH _ _ _ Hloop Hl1) as [l2 Hl2].
      exists (l1 ++ l2). by rewrite app_assoc.
Qed.

(** ** The section segmenter *)

Lemma sections_loop_assign (headers_list : list (Z * str)) (lines : list str)
  (i : nat) (todo : list (Z * str)) (sections : gmap str str) :
  todo = drop i headers_list →
  sections_loop headers_list lines i todo sections
  = Ok (assign lines todo sections).
Proof.
  revert i sections. induction todo as [|[pos header] todo IH];
    intros i sections Hdrop; simpl; [done|].
  assert (Hi : headers_list !! i = Some (pos, header)).
  { rewrite <- (Nat.add_0_r i), <- lookup_drop, <- Hdrop. done. }
  assert (Hrest : todo = drop (S i) headers_list).
  { rewrite (drop_S _ _ _ Hi) in Hdrop. by injection Hdrop. }
  pose proof (lookup_lt_Some _ _ _ Hi) as Hlt.
  destruct (Z.ltb_spec (Z.of_nat i) (Z.of_nat (length headers_list) - 1)) as [Hn|Hn].
  - destruct (lookup_lt_is_Some_2 headers_list (i + 1)) as [next Hnext]; [lia|].
    rewrite (subscript_lookup _ _ _ Hnext). simpl.
    rewrite (IH (S i)) by done. do 3 f_equal.
    rewrite Nat.add_1_r in Hnext.
    destruct todo as [|[pos' h'] todo'].
    + apply (f_equal length) in Hrest. rewrite length_drop in Hrest.
      simpl in Hrest. lia.
    + assert (headers_list !! S i = Some (pos', h')) as Hn'.
      { rewrite <- (Nat.add_0_r (S i)), <- lookup_drop, <- Hrest. done. }
      rewrite Hnext in Hn'. injection Hn' as ->. done.
  - simpl. rewrite (IH (S i)) by done. do 3 f_equal.
    destruct todo as [|[pos' h'] todo']; [done|].
    apply (f_equal length) in Hrest. rewrite length_drop in Hrest.
    simpl in Hrest. lia.
Qed.

Lemma extract_sections_assign content :
  extract_sections U content
  = Ok (let lines := split_lines content in
        assign lines
          (sorted (found_headers (scan_lines U lines 0 section_headers_init))) ∅).
Proof. unfold extract_sections. by rewrite (sections_loop_assign _ _ 0). Qed.

Lemma set_position_idem h i (sh : list (str * Z)) :
  set_position h i (set_position h i sh) = set_position h i sh.
Proof.
  unfold set_position. rewrite List.map_map. apply List.map_ext.
  intros [k v]. simpl. destruct (decide (k = h)) as [Hk|Hk].
  - rewrite (bool_decide_eq_true_2 _ Hk). simpl.
    by rewrite (bool_decide_eq_true_2 _ Hk).
  - rewrite (bool_decide_eq_false_2 _ Hk). simpl.
    by rewrite (bool_decide_eq_false_2 _ Hk).
Qed.

Lemma set_position_absent h i (sh : list (str * Z)) :
  h ∉ List.map fst sh → set_position h i sh = sh.
Proof.
  intros Hh. unfold set_position. rewrite <- (List.map_id sh) at 2.
  apply List.map_ext_in. intros [k v] Hin. simpl.
  case_bool_decide as Hk; [|done]. subst k. exfalso. apply Hh.
  apply list_elem_of_In. apply (List.in_map fst) in Hin. done.
Qed.

(** The inner loop over the keys stores [i] under the key that the line
    equals, if there is one. *)
Lemma scan_keys L i (ks : list str) (sh : list (str * Z)) :
  fold_left
    (fun sh header =>
       if bool_decide (L = header) then set_position header i sh else sh) ks sh
  = if bool_decide (L ∈ ks) then set_position L i sh else sh.
Proof.
  revert sh. induction ks as [|k ks IH]; intros sh; simpl; [done|].
  rewrite IH. destruct (decide (L = k)) as [Hk|Hk].
  - subst k. rewrite (bool_decide_eq_true_2 (L = L)) by done.
    rewrite set_position_idem.
    rewrite (bool_decide_eq_true_2 (L ∈ L :: ks)) by apply list_elem_of_here.
    by destruct (bool_decide (L ∈ ks)).
  - rewrite (bool_decide_eq_false_2 _ Hk).
    destruct (decide (L ∈ ks)) as [Hin|Hin].
    + rewrite (bool_decide_eq_true_2 _ Hin).
      rewrite bool_decide_eq_true_2; [done | by apply list_elem_of_further].
    + rewrite (bool_decide_eq_false_2 _ Hin).
      rewrite bool_decide_eq_false_2; [done|].
      rewrite elem_of_cons. intros [?|?]; done.
Qed.

Lemma scan_line_eq i line (sh : list (str * Z)) :
  scan_line U i line sh = set_position (upper U (strip line)) (Z.of_nat i) sh.
Proof.
  unfold scan_line. rewrite scan_keys. case_bool_decide as Hin; [done|].
  symmetry. by apply set_position_absent.
Qed.

(** After the scan, every header has the index of its last occurrence, and
    a header that does not occur keeps what it had. *)
Lemma scan_lines_locate lines i (sh : list (str * Z)) :
  scan_lines U lines i sh = List.map (locate U lines i) sh.
Proof.
  revert i sh. induction lines as [|line lines IH]; intros i sh; simpl.
  - unfold locate. simpl. by rewrite List.map_id.
  - rewrite IH, scan_line_eq. unfold set_position. rewrite List.map_map.
    apply List.map_ext. intros [k v]. unfold locate, is_header. simpl.
    destruct (decide (k = upper U (strip line))) as [Hk|Hk].
    + rewrite (bool_decide_eq_true_2 _ Hk). simpl.
      destruct (last_occurrence U k lines (S i)); [done|].
      unfold is_header. rewrite bool_decide_eq_true_2; done.
    + rewrite (bool_decide_eq_false_2 _ Hk). simpl.
      destruct (last_occurrence U k lines (S i)); [done|].
      unfold is_header. rewrite bool_decide_eq_false_2; done.
Qed.

Lemma last_occurrence_ge h lines i j :
  last_occurrence U h lines i = Some j → (i ≤ j < i + length lines)%nat.
Proof.
  revert i. induction lines as [|l lines IH]; intros i; simpl; [done|].
  destruct (last_occurrence U h lines (S i)) as [j'|] eqn:E.
  - intros [= <-]. apply IH in E. lia.
  - destruct (is_header U h l); [|done]. intros [= <-]. lia.
Qed.

Lemma last_occurrence_None h lines i :
  last_occurrence U h lines i = None
  ↔ Forall (fun l => is_header U h l = false) lines.
Proof.
  revert i. induction lines as [|l lines IH]; intros i; simpl.
  - split; [constructor | done].
  - rewrite Forall_cons. rewrite <- (IH (S i)).
    destruct (last_occurrence U h lines (S i)); [split; [done | intros [_ ?]; done]|].
    destruct (is_header U h l); split; try done. by intros [? _].
Qed.

(** [last_occurrence] finds a line that is the header and is followed by no
    other such line. *)
Lemma last_occurrence_Some h lines i j :
  last_occurrence U h lines i = Some j
  ↔ (i ≤ j)%nat
    ∧ (∃ l, lines !! (j - i)%nat = Some l ∧ is_header U h l = true)
    ∧ Forall (fun l => is_header U h l = false) (drop (S (j - i)) lines).
Proof.
  revert i j. induction lines as [|l lines IH]; intros i j; simpl.
  - split; [done | intros (_ & (l & Hl & _) & _); done].
  - destruct (last_occurrence U h lines (S i)) as [j'|] eqn:E.
    + pose proof (last_occurrence_ge _ _ _ _ E) as Hge.
      apply IH in E as (Hle & (l' & Hl' & Hh') & Hafter).
      split.
      * intros [= <-]. split; [lia|].
        replace (j' - i)%nat with (S (j' - S i)) by lia. simpl. eauto.
      * intros (Hij & (l0 & Hl0 & Hh0) & Hall). f_equal.
        destruct (decide (j = j')) as [|Hne]; [done|]. exfalso.
        destruct (decide (j < j')%nat) as [Hlt|Hge'].
        -- rewrite Forall_lookup in Hall.
           specialize (Hall (j' - S i - (j - i))%nat l').
           rewrite lookup_drop in Hall.
           replace (j - i + (j' - S i - (j - i)))%nat with (j' - S i)%nat in Hall by lia.
           specialize (Hall Hl'). congruence.
        -- assert (j' < j)%nat as Hgt by lia.
           rewrite Forall_lookup in Hafter.
           specialize (Hafter (j - i - 1 - S (j' - S i))%nat l0).
           rewrite lookup_drop in Hafter.
           replace (S (j' - S i) + (j - i - 1 - S (j' - S i)))%nat with (j - i - 1)%nat in Hafter by lia.
           replace (j - i)%nat with (S (j - i - 1)) in Hl0 by lia. simpl in Hl0.
           specialize (Hafter Hl0). congruence.
    + apply last_occurrence_None in E.
      destruct (is_header U h l) eqn:Hl.
      * split.
        -- intros [= <-]. rewrite Nat.sub_diag. simpl. split; [lia|]. eauto.
        -- intros (Hij & (l0 & Hl0 & Hh0) & Hall). f_equal.
           destruct (decide (j = i)) as [|Hne]; [done|]. exfalso.
           replace (j - i)%nat with (S (j - i - 1)) in Hl0 by lia. simpl in Hl0.
           rewrite Forall_lookup in E. specialize (E _ _ Hl0). congruence.
      * split; [done|]. intros (Hij & (l0 & Hl0 & Hh0) & Hall). exfalso.
        destruct (decide (j = i)) as [->|Hne].
        -- rewrite Nat.sub_diag in Hl0. simpl in Hl0. congruence.
        -- replace (j - i)%nat with (S (j - i - 1)) in Hl0 by lia. simpl in Hl0.
           rewrite Forall_lookup in E. specialize (E _ _ Hl0). congruence.
Qed.

(** The headers found, in the order of the keys: every header that occurs,
    with the index of its last occurrence. *)
Lemma found_headers_scan lines :
  found_headers (scan_lines U lines 0 section_headers_init)
  = omap (fun h => (fun j : nat => (Z.of_nat j, h)) <$> last_occurrence U h lines 0)
      HEADERS.
Proof.
  rewrite scan_lines_locate.
  change section_headers_init with (List.map (fun h : str => (h, (-1)%Z)) HEADERS).
  generalize HEADERS as hs. unfold found_headers.
  induction hs as [|h hs IH]; [done|].
  rewrite !List.map_cons. cbn [List.filter omap list_omap].
  assert (locate U lines 0 (h, (-1)%Z)
          = match last_occurrence U h lines 0 with
            | Some j => (h, Z.of_nat j)
            | None => (h, (-1)%Z)
            end) as -> by done.
  destruct (last_occurrence U h lines 0) as [j|]; cbn [snd fst fmap option_fmap option_map].
  - destruct (Z.leb_spec 0 (Z.of_nat j)); [|lia].
    rewrite List.map_cons. cbn [fst snd]. f_equal. apply IH.
  - change (0 <=? -1)%Z with false. cbv iota. apply IH.
Qed.

Lemma elem_of_found_headers lines p h :
  (p, h) ∈ found_headers (scan_lines U lines 0 section_headers_init)
  ↔ h ∈ HEADERS ∧ ∃ j : nat, p = Z.of_nat j ∧ last_occurrence U h lines 0 = Some j.
Proof.
  rewrite found_headers_scan, list_elem_of_omap. split.
  - intros (h' & Hin & Hf). destruct (last_occurrence U h' lines 0) as [j|] eqn:E;
      [|done]. injection Hf as <- <-. eauto.
  - intros (Hin & j & -> & E). exists h. by rewrite E.
Qed.

Lemma omap_keys_NoDup (f : str → option nat) (hs : list str) :
  NoDup hs →
  NoDup (List.map snd (omap (fun h => (fun j : nat => (Z.of_nat j, h)) <$> f h) hs)).
Proof.
  induction 1 as [|h hs Hh Hnd IH]; simpl; [constructor|].
  destruct (f h) as [j|]; simpl; [|done].
  constructor; [|done]. intros Hin. apply Hh.
  apply list_elem_of_In, List.in_map_iff in Hin as ([p h'] & Heq & Hin).
  simpl in Heq. subst h'.
  apply list_elem_of_In, list_elem_of_omap in Hin as (h'' & Hin & Hf).
  destruct (f h''); [|done]. by injection Hf as _ ->.
Qed.

Lemma HEADERS_NoDup : NoDup HEADERS.
Proof. compute_done. Qed.

Lemma found_headers_NoDup lines :
  NoDup (List.map snd (found_headers (scan_lines U lines 0 section_headers_init))).
Proof.
  rewrite found_headers_scan.
  apply (omap_keys_NoDup (fun h => last_occurrence U h lines 0)), HEADERS_NoDup.
Qed.

(** Two headers are not last seen on the same line. *)
Lemma found_headers_pos_inj lines p h1 h2 :
  (p, h1) ∈ found_headers (scan_lines U lines 0 section_headers_init) →
  (p, h2) ∈ found_headers (scan_lines U lines 0 section_headers_init) →
  h1 = h2.
Proof.
  rewrite !elem_of_found_headers.
  intros (_ & j1 & -> & E1) (_ & j2 & Hj & E2).
  apply Nat2Z.inj in Hj. subst j2.
  apply last_occurrence_Some in E1 as (_ & (l1 & Hl1 & Hh1) & _).
  apply last_occurrence_Some in E2 as (_ & (l2 & Hl2 & Hh2) & _).
  rewrite Hl1 in Hl2. injection Hl2 as <-.
  unfold is_header in *. apply bool_decide_eq_true in Hh1, Hh2. congruence.
Qed.

(** ** The order of [sorted] *)

Lemma str_leb_total a b : str_leb a b = true ∨ str_leb b a = true.
Proof.
  revert b. induction a as [|x a IH]; intros [|y b]; simpl; auto.
  destruct (N.ltb_spec x y); simpl; [auto|].
  destruct (N.ltb_spec y x); simpl; [auto|].
  assert (x = y) as -> by lia. rewrite N.eqb_refl. simpl. apply IH.
Qed.

Lemma str_leb_trans a b c :
  str_leb a b = true → str_leb b c = true → str_leb a c = true.
Proof.
  revert b c. induction a as [|x a IH]; intros [|y b] [|z c]; simpl; try done.
  rewrite !orb_true_iff, !andb_true_iff, !N.ltb_lt, !N.eqb_eq.
  intros [Hxy | [-> Hab]] [Hyz | [-> Hbc]].
  - left. lia.
  - left. lia.
  - left. lia.
  - right. split; [done|]. eauto.
Qed.

#[local] Instance tuple_le_total : Total tuple_le.
Proof.
  intros [p a] [q b]. unfold tuple_le, tuple_leb. simpl.
  destruct (Z.ltb_spec p q); simpl; [auto|].
  destruct (Z.ltb_spec q p); simpl; [auto|].
  assert (p = q) as -> by lia. rewrite Z.eqb_refl. simpl. apply str_leb_total.
Qed.

#[local] Instance tuple_le_trans : Transitive tuple_le.
Proof.
  intros [p a] [q b] [r c]. unfold tuple_le, tuple_leb. simpl.
  rewrite !orb_true_iff, !andb_true_iff, !Z.ltb_lt, !Z.eqb_eq.
  intros [Hpq | [-> Hab]] [Hqr | [-> Hbc]].
  - left. lia.
  - left. lia.
  - left. lia.
  - right. split; [done|]. eauto using str_leb_trans.
Qed.

Lemma tuple_le_fst p q : tuple_le p q → (p.1 ≤ q.1)%Z.
Proof.
  unfold tuple_le, tuple_leb.
  rewrite orb_true_iff, andb_true_iff, Z.ltb_lt, Z.eqb_eq. lia.
Qed.

Lemma sorted_StronglySorted l : StronglySorted tuple_le (sorted l).
Proof. apply StronglySorted_merge_sort; apply _. Qed.

Lemma sorted_Permutation l : sorted l ≡ₚ l.
Proof. apply merge_sort_Permutation. Qed.

(** ** The sections dictionary *)

Lemma assign_other (lines : list str) (todo : list (Z * str))
  (sections : gmap str str) (h : str) :
  h ∉ List.map snd todo → assign lines todo sections !! h = sections !! h.
Proof.
  revert sections. induction todo as [|[p h'] todo IH]; intros sections Hh;
    simpl; [done|].
  simpl in Hh. rewrite not_elem_of_cons in Hh. destruct Hh as [Hne Hh].
  rewrite IH by done. by rewrite lookup_insert_ne.
Qed.

Lemma assign_lookup (lines : list str) (l1 l2 : list (Z * str)) (p : Z)
  (h : str) (sections : gmap str str) :
  h ∉ List.map snd l2 →
  assign lines (l1 ++ (p, h) :: l2) sections !! h
  = Some (section_text lines (p + 1) (next_pos l2 lines)).
Proof.
  intros Hh. revert sections.
  induction l1 as [|[p' h'] l1 IH]; intros sections; simpl.
  - rewrite assign_other by done. by rewrite lookup_insert_eq.
  - apply IH.
Qed.

(** A header that no line carries has no section. *)
Lemma sections_absent lines (h : str) :
  last_occurrence U h lines 0 = None →
  assign lines (sorted (found_headers (scan_lines U lines 0 section_headers_init))) ∅
    !! h = None.
Proof.
  intros Hnone. rewrite assign_other; [done|].
  intros Hin. apply list_elem_of_In, List.in_map_iff in Hin as ([p h'] & Heq & Hin).
  simpl in Heq. subst h'. apply list_elem_of_In in Hin.
  rewrite sorted_Permutation in Hin.
  apply elem_of_found_headers in Hin as (_ & j & _ & E). congruence.
Qed.

(** The section of a header starts after the last line that carries it and
    ends at the nearest later line that is the last occurrence of a header,
    or at the end of the document. *)
Lemma sections_last_occurrence lines (h : str) (j : nat) :
  h ∈ HEADERS →
  last_occurrence U h lines 0 = Some j →
  ∃ e : nat,
    assign lines (sorted (found_headers (scan_lines U lines 0 section_headers_init))) ∅
      !! h = Some (section_text lines (Z.of_nat j + 1) (Z.of_nat e))
    ∧ (j < e ≤ length lines)%nat
    ∧ (e = length lines
       ∨ ∃ h', h' ∈ HEADERS ∧ last_occurrence U h' lines 0 = Some e)
    ∧ (∀ h' j', h' ∈ HEADERS → last_occurrence U h' lines 0 = Some j' →
                (j < j')%nat → (e ≤ j')%nat).
Proof.
  intros Hh Hj.
  set (found := found_headers (scan_lines U lines 0 section_headers_init)).
  assert (Hmem : ∀ p h', (p, h') ∈ sorted found ↔
            h' ∈ HEADERS ∧ ∃ j' : nat, p = Z.of_nat j'
                                      ∧ last_occurrence U h' lines 0 = Some j').
  { intros p h'. rewrite sorted_Permutation. apply elem_of_found_headers. }
  assert (Hin : (Z.of_nat j, h) ∈ sorted found) by (apply Hmem; eauto).
  destruct (list_elem_of_split _ _ Hin) as (l1 & l2 & Hsplit).
  assert (Hnd : NoDup (List.map snd (sorted found))).
  { assert (List.map snd (sorted found) ≡ₚ List.map snd found) as ->
      by apply Permutation_map, sorted_Permutation.
    apply found_headers_NoDup. }
  pose proof (sorted_StronglySorted found) as Hsorted.
  rewrite Hsplit in Hnd, Hsorted, Hmem |- *.
  rewrite List.map_app, List.map_cons in Hnd. simpl in Hnd.
  apply NoDup_app in Hnd as (_ & _ & Hnd). apply NoDup_cons in Hnd as [Hnotin _].
  apply StronglySorted_app in Hsorted as (Hcross & _ & Htail).
  apply StronglySorted_cons in Htail as [Hhead Htail].
  pose proof (last_occurrence_ge _ _ _ _ Hj) as Hjlen.
  assert (Hlater : ∀ p h', (p, h') ∈ l2 →
            ∃ j' : nat, p = Z.of_nat j' ∧ (j < j')%nat ∧ h' ∈ HEADERS
                        ∧ last_occurrence U h' lines 0 = Some j').
  { intros p h' Hin2.
    assert ((p, h') ∈ l1 ++ (Z.of_nat j, h) :: l2) as Hin'
      by (rewrite elem_of_app, elem_of_cons; auto).
    pose proof Hin' as Hin''. apply Hmem in Hin' as (Hh' & j' & -> & Hj').
    exists j'. repeat split; try done.
    rewrite Forall_forall in Hhead. pose proof Hin2 as Hin2'.
    apply Hhead, tuple_le_fst in Hin2. simpl in Hin2.
    destruct (decide (j = j')) as [<-|]; [|lia]. exfalso. apply Hnotin.
    rewrite <- Hsplit in Hin''.
    unfold sorted in Hin'', Hin. rewrite merge_sort_Permutation in Hin'', Hin.
    rewrite (found_headers_pos_inj _ _ _ _ Hin Hin'').
    apply list_elem_of_In, List.in_map_iff. exists (Z.of_nat j, h').
    split; [done|]. by apply list_elem_of_In. }
  rewrite assign_lookup by done.
  destruct l2 as [|[p' h'] l2'].
  - exists (length lines). simpl.
    split; [done|]. split; [lia|]. split; [by left|].
    intros h' j' Hh' Hj' Hlt. exfalso.
    assert ((Z.of_nat j', h') ∈ l1 ++ [(Z.of_nat j, h)]) as Hin'
      by (apply Hmem; eauto).
    rewrite elem_of_app, list_elem_of_singleton in Hin'.
    destruct Hin' as [Hin' | Heq].
    + apply (Hcross _ (Z.of_nat j, h)) in Hin'; [|apply list_elem_of_here].
      apply tuple_le_fst in Hin'. simpl in Hin'. lia.
    + injection Heq as Heq _. lia.
  - destruct (Hlater p' h') as (e & -> & Hlt & Hh' & He); [apply list_elem_of_here|].
    exists e. simpl. pose proof (last_occurrence_ge _ _ _ _ He).
    split; [done|]. split; [lia|]. split; [right; eauto|].
    intros h'' j'' Hh'' Hj'' Hlt''.
    assert ((Z.of_nat j'', h'') ∈ l1 ++ (Z.of_nat j, h) :: (Z.of_nat e, h') :: l2')
      as Hin' by (apply Hmem; eauto).
    rewrite elem_of_app, !elem_of_cons in Hin'.
    destruct Hin' as [Hin' | [Heq | [Heq | Hin']]].
    + apply (Hcross _ (Z.of_nat j, h)) in Hin'; [|apply list_elem_of_here].
      apply tuple_le_fst in Hin'. simpl in Hin'. lia.
    + injection Heq as Heq _. lia.
    + injection Heq as Heq _. lia.
    + apply StronglySorted_cons in Htail as [Hhead' _].
      rewrite Forall_forall in Hhead'. apply Hhead', tuple_le_fst in Hin'.
      simpl in Hin'. lia.
Qed.

(** ** [parse] in one equation *)

Lemma extract_sections_of text :
  extract_sections U text = Ok (sections_of U text).
Proof. apply extract_sections_assign. Qed.

Lemma parse_skills_of text : _parse_skills text = Ok (skills_of text).
Proof.
  unfold skills_of. destruct (parse_skills_ok text) as [sk ->]. done.
Qed.

Lemma extract_all_sections_eq self :
  _extract_all_sections U self
  = Ok (set_resume_data self
          (let d := resume_data self in
           let sections := sections_of U (content self) in
           {| name := name d;
              contact := contact d;
              summary := default (summary d) (sections !! SUMMARY);
              experience :=
                default (experience d) (jobs_of U <$> sections !! EXPERIENCE);
              education :=
                default (education d) (_parse_education <$> sections !! EDUCATION);
              skills := default (skills d) (skills_of <$> sections !! SKILLS);
              certifications :=
                default (certifications d)
                  (_parse_certifications <$> sections !! CERTIFICATIONS);
              honors_awards :=
                default (honors_awards d)
                  (_parse_honors_awards <$> sections !! HONORS_AND_AWARDS) |})).
Proof.
  destruct self as [f text d], d as [n c su ex ed sk ce ho].
  unfold _extract_all_sections. rewrite extract_sections_of. cbn [bind].
  cbv zeta. cbn [content resume_data]. set (sec := sections_of U text).
  unfold when_section.
  destruct (sec !! SUMMARY); cbn [bind];
    (destruct (sec !! EXPERIENCE);
       [rewrite parse_experience_fold|]); cbn [bind];
    destruct (sec !! EDUCATION); cbn [bind];
    destruct (sec !! CERTIFICATIONS); cbn [bind];
    (destruct (sec !! SKILLS); [rewrite parse_skills_of|]); cbn [bind];
    destruct (sec !! HONORS_AND_AWARDS); cbn [bind];
    reflexivity.
Qed.

(** [parse] raises nothing, touches neither [input_file] nor [content], and
    leaves [parsed_record] in [resume_data]. *)
Lemma parse_eq self :
  parse U self
  = Ok (set_resume_data self (parsed_record U (content self) (resume_data self))).
Proof.
  unfold parse. cbv zeta.
  pose proof (split_lines_length_pos (content self)) as Hlen.
  unfold parsed_record. cbv zeta.
  destruct (split_lines (content self)) as [|first lines] eqn:Hlines;
    [simpl in Hlen; lia|].
  unfold extract_name, subscript, name_of. cbn [lookup list_lookup bind].
  destruct self as [f text d], d as [n c su ex ed sk ce ho].
  destruct (nonempty (strip first)); cbn [bind];
    rewrite extract_all_sections_eq; reflexivity.
Qed.

(** ** The contact dictionary *)

Lemma lookup_set_if_found (key k : string) (m : option str) (c : gmap string str) :
  set_if_found key m c !! k
  = if decide (key = k) then from_option Some (c !! k) m else c !! k.
Proof.
  unfold set_if_found. destruct m as [g|]; simpl.
  - rewrite lookup_insert. by destruct (decide (key = k)).
  - by destruct (decide (key = k)).
Qed.

Lemma set_if_found_dom (key : string) (m : option str) (c : gmap string str) :
  dom (set_if_found key m c) ⊆ {[key]} ∪ dom c.
Proof.
  unfold set_if_found. destruct m; [rewrite dom_insert_L|]; set_solver.
Qed.

Lemma contact_of_dom top_lines (c : gmap string str) :
  dom (contact_of U top_lines c)
  ⊆ {["email"; "phone"; "location"]} ∪ dom c.
Proof.
  unfold contact_of. cbv zeta.
  set (email := search (EMAIL_RE U) _). set (phone := search (PHONE_RE U) _).
  intros k Hk. apply elem_of_dom in Hk. rewrite !lookup_set_if_found in Hk.
  rewrite !elem_of_union, !elem_of_singleton, elem_of_dom.
  destruct (decide ("location" = k)); [auto|].
  destruct (decide ("phone" = k)); [auto|].
  destruct (decide ("email" = k)); auto.
Qed.

(** Extracting the contact information a second time changes nothing. *)
Lemma contact_of_idem top_lines (c : gmap string str) :
  contact_of U top_lines (contact_of U top_lines c) = contact_of U top_lines c.
Proof.
  apply map_eq. intros k. unfold contact_of. cbv zeta.
  rewrite !lookup_set_if_found.
  destruct (find_location top_lines), (search (PHONE_RE U) _),
    (search (EMAIL_RE U) _); simpl;
    destruct (decide ("location" = k)), (decide ("phone" = k)),
      (decide ("email" = k)); done.
Qed.

Lemma contact_of_empty top_lines :
  contact_of U top_lines ∅ = ∅
  ↔ search (EMAIL_RE U) (join [NEWLINE] top_lines) = None
    ∧ search (PHONE_RE U) (join [NEWLINE] top_lines) = None
    ∧ find_location top_lines = None.
Proof.
  unfold contact_of. cbv zeta. split.
  - unfold set_if_found. intros H.
    destruct (find_location top_lines); [by apply insert_non_empty in H|].
    destruct (search (PHONE_RE U) _); [by apply insert_non_empty in H|].
    destruct (search (EMAIL_RE U) _); [by apply insert_non_empty in H|].
    done.
  - by intros (-> & -> & ->).
Qed.

Lemma name_of_idem lines n : name_of lines (name_of lines n) = name_of lines n.
Proof. unfold name_of. destruct lines; [done|]. by destruct (nonempty _). Qed.

Lemma parsed_record_idem text d :
  parsed_record U text (parsed_record U text d) = parsed_record U text d.
Proof.
  unfold parsed_record. cbv zeta. cbn [name contact summary experience education
    skills certifications honors_awards].
  rewrite name_of_idem, contact_of_idem.
  f_equal; by destruct (sections_of U text !! _).
Qed.

Lemma parse_text_eq text :
  parse_text U text
  = Ok (parsed_record U text (resume_data (__init__ (lit "resume.txt")))).
Proof. unfold parse_text. rewrite parse_eq. done. Qed.

(** ** [parse]: totality, determinism and the keys of the contact mapping *)

(** C8.  [parse] is total: for every text, and whatever record the parser
    holds, it returns a record and raises nothing.  This covers the
    subscripts of the sub-parsers: the [while] loop of [_parse_experience]
    ends within its lines, [lines[i]] and [headers_list[i+1]] are in range,
    and [skills[current_category]] is an existing key. *)
Theorem parse_total :
  (∀ text, ∃ r, parse_text U text = Ok r)
  ∧ (∀ self, ∃ self', parse U self = Ok self')
  ∧ (∀ text, ∃ jobs, _parse_experience U text = Ok jobs)
  ∧ (∀ text, ∃ sk, _parse_skills text = Ok sk)
  ∧ (∀ text, ∃ sections, extract_sections U text = Ok sections).
Proof.
  repeat split.
  - intros text. rewrite parse_text_eq. eauto.
  - intros self. rewrite parse_eq. eauto.
  - intros text. rewrite parse_experience_fold. eauto.
  - intros text. apply parse_skills_ok.
  - intros text. rewrite extract_sections_of. eauto.
Qed.

(** C9.  Parsing is deterministic: two fresh parsers given the same text
    return the same record, whatever their [input_file]; and it is
    idempotent: calling [parse] again on the parser that [parse] left
    returns the same parser, with the same record. *)
Theorem parse_deterministic_idempotent :
  (∀ f1 f2 text,
     (do self <- parse U (load_content (__init__ f1) text); Ok (resume_data self))
     = (do self <- parse U (load_content (__init__ f2) text); Ok (resume_data self)))
  ∧ (∀ self, (do self' <- parse U self; parse U self') = parse U self).
Proof.
  split.
  - intros f1 f2 text. by rewrite !parse_eq.
  - intros self. rewrite parse_eq. cbn [bind]. rewrite parse_eq.
    destruct self as [f text d]. unfold set_resume_data.
    cbn [content resume_data input_file]. by rewrite parsed_record_idem.
Qed.

(** C10.  The parser never sets the key "linkedin": the contact mapping of
    the record parsed from any text has no other keys than "email", "phone"
    and "location". *)
Theorem contact_keys text :
  ∃ r, parse_text U text = Ok r
       ∧ dom (contact r) ⊆ {["email"; "phone"; "location"]}
       ∧ contact r !! "linkedin" = None.
Proof.
  rewrite parse_text_eq. eexists. split; [done|].
  cbn [parsed_record contact __init__ resume_data].
  assert (Hdom : dom (contact_of U (take 10 (split_lines text)) ∅)
                 ⊆ {["email"; "phone"; "location"]}).
  { intros k Hk. apply contact_of_dom in Hk.
    rewrite elem_of_union, dom_empty_L in Hk.
    destruct Hk as [Hk|Hk]; [done | by apply not_elem_of_empty in Hk]. }
  split; [done|].
  apply not_elem_of_dom. intros Hk. apply Hdom in Hk.
  rewrite !elem_of_union, !elem_of_singleton in Hk.
  destruct Hk as [[Hk|Hk]|Hk]; discriminate.
Qed.

(** ** Certifications, honors and awards *)

Lemma certifications_loop_provider lines current_provider certs :
  Forall (fun c => provider c ≠ []) certs →
  Forall (fun c => provider c ≠ []) (certifications_loop lines current_provider certs).
Proof.
  revert current_provider certs.
  induction lines as [|l lines IH]; intros cp certs Hcerts; simpl; [done|].
  destruct (nonempty (strip l)); simpl; [|by apply IH].
  destruct (startswith (strip l) BULLET); [|by apply IH].
  destruct cp as [p|]; [|by apply IH].
  destruct (nonempty p) eqn:Hp; [|by apply IH].
  apply IH. apply Forall_app. split; [done|].
  constructor; [|constructor]. simpl. by apply nonempty_true.
Qed.

Lemma honors_awards_loop_organization lines current_org awards :
  Forall (fun a => organization a ≠ []) awards →
  Forall (fun a => organization a ≠ []) (honors_awards_loop lines current_org awards).
Proof.
  revert current_org awards.
  induction lines as [|l lines IH]; intros co awards Hawards; simpl; [done|].
  destruct (nonempty (strip l)); simpl; [|by apply IH].
  destruct (startswith (strip l) BULLET); [|by apply IH].
  destruct co as [o|]; [|by apply IH].
  destruct (nonempty o) eqn:Ho; [|by apply IH].
  apply IH. apply Forall_app. split; [done|].
  constructor; [|constructor]. simpl. by apply nonempty_true.
Qed.

(** Bullets and blank lines before the first provider leave no trace. *)
Lemma certifications_loop_skip pre rest certs :
  Forall (fun l => bullet_or_blank l = true) pre →
  certifications_loop (pre ++ rest) None certs
  = certifications_loop rest None certs.
Proof.
  induction 1 as [|l pre Hl _ IH]; simpl; [done|].
  unfold bullet_or_blank in Hl.
  destruct (nonempty (strip l)); simpl in *; [|done].
  by rewrite Hl.
Qed.

Lemma honors_awards_loop_skip pre rest awards :
  Forall (fun l => bullet_or_blank l = true) pre →
  honors_awards_loop (pre ++ rest) None awards
  = honors_awards_loop rest None awards.
Proof.
  induction 1 as [|l pre Hl _ IH]; simpl; [done|].
  unfold bullet_or_blank in Hl.
  destruct (nonempty (strip l)); simpl in *; [|done].
  by rewrite Hl.
Qed.

(** C5.  Every certification that is emitted has a provider that is not
    empty, and every award an organization that is not empty.  Bullet lines
    (and blank lines) before the first provider or organization line are
    dropped: the result is that of the rest of the section, and a section
    of bullets alone gives nothing.  Neither sub-parser can raise. *)
Theorem certifications_have_provider :
  (∀ content, Forall (fun c => provider c ≠ []) (_parse_certifications content))
  ∧ (∀ content, Forall (fun a => organization a ≠ []) (_parse_honors_awards content))
  ∧ (∀ pre rest,
       Forall (fun l => bullet_or_blank l = true) (split_lines pre) →
       _parse_certifications (pre ++ NEWLINE :: rest) = _parse_certifications rest
       ∧ _parse_honors_awards (pre ++ NEWLINE :: rest) = _parse_honors_awards rest)
  ∧ (∀ content,
       Forall (fun l => bullet_or_blank l = true) (split_lines content) →
       _parse_certifications content = [] ∧ _parse_honors_awards content = []).
Proof.
  split; [|split; [|split]].
  - intros content. by apply certifications_loop_provider.
  - intros content. by apply honors_awards_loop_organization.
  - intros pre rest Hpre.
    unfold _parse_certifications, _parse_honors_awards.
    rewrite split_lines_app.
    by rewrite certifications_loop_skip, honors_awards_loop_skip.
  - intros content Hall.
    unfold _parse_certifications, _parse_honors_awards.
    rewrite <- (app_nil_r (split_lines content)).
    by rewrite certifications_loop_skip, honors_awards_loop_skip.
Qed.

(** ** Repeated headers *)

Lemma section_headers_init_HEADERS :
  section_headers_init = List.map (fun h : str => (h, (-1)%Z)) HEADERS.
Proof. reflexivity. Qed.

(** C4.  When a header literal is on several lines, the scan leaves the
    index [j] of the last of them in [section_headers], and the section of
    that header is cut from line [j + 1] to [e], where [e] is the nearest
    later line that is the last occurrence of a header, or the end of the
    document.  The sections dictionary has this one entry for the header:
    earlier occurrences give no section. *)
Theorem last_header_occurrence_wins content (h : str) (j : nat) :
  let lines := split_lines content in
  h ∈ HEADERS →
  (∃ l, lines !! j = Some l ∧ is_header U h l = true) →
  Forall (fun l => is_header U h l = false) (drop (S j) lines) →
  (h, Z.of_nat j) ∈ scan_lines U lines 0 section_headers_init
  ∧ ∃ (sections : gmap str str) (e : nat),
      extract_sections U content = Ok sections
      ∧ sections !! h = Some (section_text lines (Z.of_nat j + 1) (Z.of_nat e))
      ∧ (j < e ≤ length lines)%nat
      ∧ (e = length lines
         ∨ ∃ h', h' ∈ HEADERS ∧ last_occurrence U h' lines 0 = Some e)
      ∧ (∀ h' j', h' ∈ HEADERS → last_occurrence U h' lines 0 = Some j' →
                  (j < j')%nat → (e ≤ j')%nat).
Proof.
  intros lines Hh Hline Hafter.
  assert (Hlast : last_occurrence U h lines 0 = Some j).
  { apply last_occurrence_Some. rewrite Nat.sub_0_r. split; [lia|]. done. }
  split.
  - rewrite scan_lines_locate, section_headers_init_HEADERS, List.map_map.
    apply list_elem_of_In, List.in_map_iff. exists h.
    split; [|by apply list_elem_of_In].
    unfold locate. simpl. by rewrite Hlast.
  - destruct (sections_last_occurrence lines h j Hh Hlast)
      as (e & Hsec & Hrange & Hend & Hmin).
    exists (sections_of U content), e.
    split; [apply extract_sections_of|]. done.
Qed.

(** ** Regular expressions *)

Lemma run_length_le_bound p n s : run_length p (Some n) s ≤ n.
Proof.
  revert n. induction s as [|c s IH]; intros [|n]; simpl; try lia.
  destruct (p c); [|lia]. specialize (IH n). lia.
Qed.

Lemma run_length_le_length p bound s : run_length p bound s ≤ length s.
Proof.
  revert bound. induction s as [|c s IH]; intros [[|n]|]; simpl; try lia.
  - destruct (p c); [|lia]. specialize (IH (Some n)). lia.
  - destruct (p c); [|lia]. specialize (IH None). lia.
Qed.

(** The run is as long as its bound exactly when the bounded prefix is in
    the class. *)
Lemma run_length_full p n s :
  run_length p (Some n) s = n
  ↔ n ≤ length s ∧ Forall (fun c => p c = true) (take n s).
Proof.
  revert n. induction s as [|c s IH]; intros [|n]; simpl.
  - split; [split; [lia | constructor] | done].
  - split; [done | lia].
  - split; [split; [lia | constructor] | done].
  - destruct (p c) eqn:Hc.
    + rewrite Forall_cons. split.
      * intros [= H]. apply IH in H as [? ?]. split; [lia | done].
      * intros (? & _ & ?). f_equal. apply IH. split; [lia | done].
    + split; [done|]. intros [_ H]. apply Forall_cons in H as [? _]. congruence.
Qed.

Lemma give_back_below k s lo n : n < lo → give_back k s lo n = None.
Proof.
  intros Hlt. apply Nat.ltb_lt in Hlt.
  destruct n; cbn [give_back]; by rewrite Hlt.
Qed.

Lemma give_back_exact k s n :
  give_back k s n n = (fun m => n + m) <$> k (drop n s).
Proof.
  destruct n as [|n]; cbn [give_back].
  - simpl. by destruct (k s).
  - rewrite Nat.ltb_irrefl. destruct (k (drop (S n) s)); [done|].
    simpl. apply give_back_below. lia.
Qed.

(** What [give_back] returns is a match of the continuation after a number
    of characters between the two bounds. *)
Lemma give_back_Some k s lo n r :
  give_back k s lo n = Some r →
  ∃ n' m, lo ≤ n' ≤ n ∧ k (drop n' s) = Some m ∧ r = n' + m.
Proof.
  induction n as [|n IH]; cbn [give_back].
  - destruct (Nat.ltb_spec 0 lo) as [|Hlo]; [done|].
    destruct (k (drop 0 s)) as [m|] eqn:E; [|done].
    intros [= <-]. exists 0, m. split; [lia | done].
  - destruct (Nat.ltb_spec (S n) lo) as [|Hlo]; [done|].
    destruct (k (drop (S n) s)) eqn:E.
    + intros [= <-]. exists (S n), n0. split; [lia | done].
    + intros H. apply IH in H as (n' & m & ? & ? & ?).
      exists n', m. split; [lia | done].
Qed.

(** An atom repeated exactly [n] times matches when the [n] characters at
    the head are in its class. *)
Lemma match_here_times n p re fin s :
  match_here (times n p :: re) fin s
  = if decide (run_length p (Some n) s = n)
    then (fun m => n + m) <$> match_here re fin (drop n s)
    else None.
Proof.
  cbn [match_here times cls rmin rmax].
  destruct (decide (run_length p (Some n) s = n)) as [->|Hne].
  - apply give_back_exact.
  - apply give_back_below. pose proof (run_length_le_bound p n s). lia.
Qed.

(** A match ends inside the string, at a place where [fin] holds. *)
Lemma match_here_end re fin s n :
  match_here re fin s = Some n → n ≤ length s ∧ fin (drop n s) = true.
Proof.
  revert s n. induction re as [|a re IH]; intros s n; simpl.
  - destruct (fin s) eqn:E; [|done]. intros [= <-]. split; [lia | done].
  - intros H. apply give_back_Some in H as (n' & m & Hn' & Hk & ->).
    apply IH in Hk as [Hm Hfin]. rewrite length_drop in Hm.
    pose proof (run_length_le_length (cls a) (rmax a) s).
    split; [lia|]. by rewrite <- drop_drop.
Qed.

(** [search] returns the match at the leftmost position that has one. *)
Lemma search_leftmost re s g :
  search re s = Some g →
  ∃ pre post,
    s = pre ++ g ++ post
    ∧ match_here re anywhere (g ++ post) = Some (length g)
    ∧ ∀ k, k < length pre → match_here re anywhere (drop k s) = None.
Proof.
  induction s as [|c s IH]; simpl.
  - destruct (match_here re anywhere []) as [n|] eqn:E; [|done].
    intros [= <-]. exists [], [].
    pose proof (match_here_end _ _ _ _ E) as [Hn _].
    simpl in Hn. assert (n = 0) as -> by lia. simpl.
    split; [done|]. split; [done | intros; lia].
  - destruct (match_here re anywhere (c :: s)) as [n|] eqn:E.
    + intros [= <-]. exists [], (drop n (c :: s)).
      pose proof (match_here_end _ _ _ _ E) as [Hn _].
      rewrite app_nil_l, take_drop, length_take_le by done.
      split; [done|]. split; [done|]. simpl. intros; lia.
    + intros H. apply IH in H as (pre & post & -> & Hm & Hbefore).
      exists (c :: pre), post. split; [done|]. split; [done|].
      intros [|k] Hk; simpl; [done|]. apply Hbefore. simpl in Hk. lia.
Qed.

Lemma search_None re s :
  search re s = None ↔ ∀ k, match_here re anywhere (drop k s) = None.
Proof.
  induction s as [|c s IH]; simpl.
  - destruct (match_here re anywhere []) eqn:E.
    + split; [done|]. intros H. specialize (H 0). simpl in H. congruence.
    + split; [|done]. intros _ k. by rewrite drop_nil.
  - destruct (match_here re anywhere (c :: s)) eqn:E.
    + split; [done|]. intros H. specialize (H 0). simpl in H. congruence.
    + rewrite IH. split.
      * intros H [|k]; simpl; [done | apply H].
      * intros H k. apply (H (S k)).
Qed.

Lemma match_here_times_Some n p re fin s m :
  match_here (times n p :: re) fin s = Some m
  ↔ ∃ m', n ≤ length s
          ∧ Forall (fun c => p c = true) (take n s)
          ∧ match_here re fin (drop n s) = Some m'
          ∧ m = n + m'.
Proof.
  rewrite match_here_times.
  destruct (decide (run_length p (Some n) s = n)) as [Hrun|Hrun].
  - apply run_length_full in Hrun as [Hlen Hall]. split.
    + destruct (match_here re fin (drop n s)) as [m'|]; [|done].
      intros [= <-]. eauto.
    + intros (m' & _ & _ & -> & ->). done.
  - split; [done|]. intros (m' & Hlen & Hall & _). exfalso.
    apply Hrun, run_length_full. done.
Qed.

(** ** The date test of the experience loop *)

Lemma date_here s :
  is_Some (match_here (DATE_RE U) anywhere s)
  ↔ ∃ mm yyyy post,
      s = mm ++ [47%N] ++ yyyy ++ post
      ∧ length mm = 2 ∧ length yyyy = 4
      ∧ Forall (fun c => isdecimal U c = true) mm
      ∧ Forall (fun c => isdecimal U c = true) yyyy.
Proof.
  unfold DATE_RE. change (one (chr 47)) with (times 1 (chr 47)). split.
  - intros [m Hm].
    apply match_here_times_Some in Hm as (m1 & H2 & Hmm & Hm & _).
    apply match_here_times_Some in Hm as (m2 & H1 & Hslash & Hm & _).
    apply match_here_times_Some in Hm as (m3 & H4 & Hyyyy & _ & _).
    exists (take 2 s), (take 4 (drop 1 (drop 2 s))), (drop 4 (drop 1 (drop 2 s))).
    split; [|split; [|split; [|done]]].
    + rewrite <- (take_drop 2 s) at 1. f_equal.
      destruct (drop 2 s) as [|c t]; [simpl in H1; lia|].
      change (take 1 (c :: t)) with [c] in Hslash.
      apply Forall_cons in Hslash as [Hc _].
      unfold chr in Hc. apply N.eqb_eq in Hc. subst c.
      change (drop 1 (47%N :: t)) with t. cbn [app]. f_equal.
      by rewrite take_drop.
    + rewrite length_take. lia.
    + rewrite length_take. lia.
  - intros (mm & yyyy & post & -> & Hmm & Hyyyy & Hdmm & Hdyyyy).
    exists (2 + (1 + (4 + 0))).
    apply match_here_times_Some. exists (1 + (4 + 0)).
    rewrite length_app, (take_app_length' mm), (drop_app_length' mm) by done.
    split; [lia|]. split; [done|]. split; [|done].
    apply match_here_times_Some. exists (4 + 0).
    change (take 1 ([47%N] ++ yyyy ++ post)) with [47%N].
    change (drop 1 ([47%N] ++ yyyy ++ post)) with (yyyy ++ post).
    split; [simpl; lia|]. split; [by repeat constructor|]. split; [|done].
    apply match_here_times_Some. exists 0.
    rewrite length_app, (take_app_length' yyyy), (drop_app_length' yyyy) by done.
    split; [lia|]. split; [done|]. split; done.
Qed.

(** [re.search] finds a date exactly when the line has two digits, a
    slash and four digits in a row. *)
Lemma search_date s :
  is_match (search (DATE_RE U) s) = true ↔ has_mm_yyyy U s.
Proof.
  unfold has_mm_yyyy. split.
  - destruct (search (DATE_RE U) s) as [g|] eqn:E; [|done]. intros _.
    apply search_leftmost in E as (pre & post & -> & Hm & _).
    destruct (proj1 (date_here (g ++ post))) as (mm & yyyy & post' & Heq & ?);
      [eauto|].
    exists pre, mm, yyyy, post'. by rewrite Heq.
  - intros (pre & mm & yyyy & post & -> & Hrest).
    destruct (search (DATE_RE U) _) eqn:E; [done|]. exfalso.
    rewrite search_None in E. specialize (E (length pre)).
    rewrite drop_app_length in E.
    destruct (proj2 (date_here (mm ++ [47%N] ++ yyyy ++ post))) as [m Hm];
      [by exists mm, yyyy, post|].
    congruence.
Qed.

(** The test of the date branch, in words: a date and "present", or a
    hyphen and two slashes. *)
Lemma is_date_range_spec line :
  is_date_range U line = true
  ↔ (has_mm_yyyy U line ∧ has_present U line)
    ∨ (45%N ∈ line ∧ 2 ≤ count line 47%N).
Proof.
  unfold is_date_range. cbv zeta.
  rewrite orb_true_iff, !andb_true_iff, search_date, Nat.leb_le, !contains_spec.
  unfold has_present.
  assert ((∃ pre post, line = pre ++ lit "-" ++ post) ↔ 45%N ∈ line) as ->; [|done].
  split.
  - intros (pre & post & ->). rewrite elem_of_app. right. apply list_elem_of_here.
  - intros Hin. apply list_elem_of_split in Hin as (pre & post & ->). eauto.
Qed.

Lemma count_app (a b : str) c : count (a ++ b) c = count a c + count b c.
Proof. unfold count. by rewrite List.filter_app, length_app. Qed.

(** Without a slash a line is no date range. *)
Lemma is_date_range_no_slash line :
  count line 47%N = 0 → is_date_range U line = false.
Proof.
  intros Hc. destruct (is_date_range U line) eqn:E; [|done]. exfalso.
  apply is_date_range_spec in E as [[(pre & mm & yyyy & post & -> & _) _] | [_ H]].
  - rewrite !count_app in Hc. change (count [47%N] 47%N) with 1 in Hc. lia.
  - lia.
Qed.

Lemma experience_step_other raw st :
  nonempty (strip raw) = true →
  startswith (strip raw) BULLET = false →
  is_date_range U (strip raw) = false →
  experience_step U raw st = new_job_or_slot (strip raw) st.
Proof.
  intros H1 H2 H3. unfold experience_step. cbv zeta. by rewrite H1, H2, H3.
Qed.

(** C2 (as amended).  For a line that is neither blank nor a bullet, the
    date branch is taken exactly when the line has an MM/YYYY substring and
    the word "present" in any case, or has a hyphen and at least two
    slashes: the test reads [(date and present) or (hyphen and slashes)],
    so a line with a hyphen and two slashes is a date range without any
    MM/YYYY substring.  When the branch is taken, [period] becomes the
    trimmed line and nothing else changes; when it is not, the line goes to
    the branches that follow. *)
Theorem date_range_classification raw st :
  let line := strip raw in
  nonempty line = true →
  startswith line BULLET = false →
  (is_date_range U line = true
   ↔ (has_mm_yyyy U line ∧ has_present U line)
     ∨ (45%N ∈ line ∧ 2 ≤ count line 47%N))
  ∧ (is_date_range U line = true →
     experience_step U raw st = set_period st line)
  ∧ (is_date_range U line = false →
     experience_step U raw st = new_job_or_slot line st).
Proof.
  intros line Hline Hbullet. split; [apply is_date_range_spec|].
  unfold experience_step. cbv zeta. fold line.
  rewrite Hline, Hbullet. cbn [negb].
  split; intros ->; done.
Qed.

(** C1 (as amended).  The EXPERIENCE section of the example, its two bullet
    lines starting with the marker of the source, gives one job: "Beta Inc"
    has two words, so it opens no job, and with company and position set it
    and "Engineer" are ignored.  The job has the company, position and
    period of the first three lines and one description item for each
    bullet line.  In general a line that starts with the marker appends one
    item to the description and changes nothing else. *)
Theorem experience_example_one_job :
  (∃ item1 item2,
     _parse_experience U (experience_example BULLET)
     = Ok [ {| company := lit "Acme Corp";
               position := lit "Senior Engineer";
               period := lit "01/2020 - present";
               description := [item1; item2] |} ]
     ∧ lit "Built the thing" `suffix_of` item1
     ∧ lit "Shipped the other thing" `suffix_of` item2)
  ∧ (∀ raw st,
       startswith (strip raw) BULLET = true →
       ∃ item, experience_step U raw st = add_description st item).
Proof.
  split.
  - eexists _, _. split; [vm_compute; reflexivity|].
    split; [by exists [196; 162; 32]%N | by exists [196; 162; 32]%N].
  - intros raw st Hbullet. unfold experience_step. cbv zeta.
    rewrite Hbullet.
    destruct (strip raw) as [|c s] eqn:E; [done|]. simpl. eauto.
Qed.

(** C3 (what the code does).  A category header that comes a second time
    empties the bucket of its category: the skills listed under the first
    "Languages:" are gone from the result. *)
Theorem repeated_category_header_clears :
  _parse_skills
    (join [NEWLINE] [lit "Languages:"; lit "Python"; lit "Languages:"; lit "Go"])
  = Ok {[ lit "Languages" := [lit "Go"] ]}.
Proof. vm_compute. reflexivity. Qed.

(** ** The location scan *)

Lemma lstrip_head s c t : lstrip s = c :: t → isspace c = false.
Proof.
  induction s as [|x s IH]; simpl; [done|].
  destruct (isspace x) eqn:Hx; [done|]. by intros [= <- _].
Qed.

Lemma strip_last s c : last (strip s) = Some c → isspace c = false.
Proof.
  unfold strip, rstrip.
  destruct (lstrip (rev (lstrip s))) as [|x t] eqn:E; [done|].
  simpl. rewrite last_snoc. intros [= <-]. by apply lstrip_head in E.
Qed.

(** A trimmed line that matches between [^] and [$] matches as a whole. *)
Lemma search_anchored_whole re s g :
  search_anchored re (strip s) = Some g → g = strip s.
Proof.
  unfold search_anchored.
  destruct (match_here re dollar (strip s)) as [n|] eqn:E; [|done].
  intros [= <-]. apply match_here_end in E as [Hn Hfin].
  rewrite <- (take_drop n (strip s)) at 2.
  destruct (drop n (strip s)) as [|c [|]] eqn:Hdrop; simpl in Hfin; try done.
  - by rewrite app_nil_r.
  - apply N.eqb_eq in Hfin. subst c. exfalso.
    assert (last (strip s) = Some NEWLINE) as Hlast.
    { rewrite <- (take_drop n (strip s)), Hdrop. apply last_snoc. }
    apply strip_last in Hlast. done.
Qed.

(** The first line that matches gives the location, whatever follows it. *)
Lemma find_location_first pre line post :
  Forall (fun l => search_anchored LOCATION_RE (strip l) = None) pre →
  is_Some (search_anchored LOCATION_RE (strip line)) →
  find_location (pre ++ line :: post) = Some (strip line).
Proof.
  intros Hpre [g Hg]. induction Hpre as [|l pre Hl _ IH]; simpl.
  - rewrite Hg. f_equal. by apply search_anchored_whole in Hg.
  - by rewrite Hl.
Qed.

(** C7 (as amended).  The record parsed from any text by a fresh parser has
    the first line, trimmed, as its name (the placeholder if that line is
    blank) and, as its contact mapping, what the contact extractor finds in
    the first ten lines, the name line among them: the mapping is empty
    exactly when these lines have no email, no phone number and no line of
    the shape of a location.  Every section whose header is on no line
    keeps its default: the empty string, the empty list or the empty
    mapping. *)
Theorem absent_sections_keep_defaults text :
  let lines := split_lines text in
  let absent h := Forall (fun l => is_header U h l = false) lines in
  ∃ r, parse_text U text = Ok r
       ∧ name r = name_of lines (lit "Your Name")
       ∧ (∀ first rest, lines = first :: rest → nonempty (strip first) = true →
            name r = strip first)
       ∧ contact r = contact_of U (take 10 lines) ∅
       ∧ (contact r = ∅
          ↔ search (EMAIL_RE U) (join [NEWLINE] (take 10 lines)) = None
            ∧ search (PHONE_RE U) (join [NEWLINE] (take 10 lines)) = None
            ∧ find_location (take 10 lines) = None)
       ∧ (absent SUMMARY → summary r = [])
       ∧ (absent EXPERIENCE → experience r = [])
       ∧ (absent EDUCATION → education r = [])
       ∧ (absent SKILLS → skills r = ∅)
       ∧ (absent CERTIFICATIONS → certifications r = [])
       ∧ (absent HONORS_AND_AWARDS → honors_awards r = []).
Proof.
  intros lines absent. rewrite parse_text_eq. eexists. split; [done|].
  cbn [parsed_record name contact summary experience education skills
         certifications honors_awards __init__ resume_data].
  fold lines.
  assert (Hnone : ∀ h, absent h → sections_of U text !! h = None).
  { intros h Hh. apply sections_absent, last_occurrence_None, Hh. }
  split; [done|].
  split; [intros first rest -> Hfirst; simpl; by rewrite Hfirst|].
  split; [done|]. split; [apply contact_of_empty|].
  repeat split; intros Hh; by rewrite (Hnone _ Hh).
Qed.

End Properties.

(** * Concrete documents

    The lemmas below run the parser on documents.  Where a document is
    ASCII the tables beyond ASCII play no part, and the statements hold for
    every [UnicodeDB]. *)

(** Evaluate the innermost pass of the experience loop in [H]: a line
    without a slash by [experience_step_other], any other line by
    computation. *)
Ltac eval_step H :=
  match type of H with
  | context [experience_step ?U ?l ?st] =>
      lazymatch st with
      | context [experience_step] => fail
      | _ =>
          first
            [ rewrite (experience_step_other U l st) in H
                by (first [ vm_compute; reflexivity
                          | apply is_date_range_no_slash; vm_compute; reflexivity ]);
              let v := eval vm_compute in (new_job_or_slot (strip l) st) in
              change (new_job_or_slot (strip l) st) with v in H
            | let v := eval vm_compute in (experience_step U l st) in
              change (experience_step U l st) with v in H ]
      end
  end.

(** C1, refuted as stated: on the seven lines with the bullet character
    U+2022 the result is not the two jobs of the claim, whatever the Unicode
    tables.  (The two lines are not bullets for the marker of the source,
    and each has more than two words: the result is three jobs.) *)
Lemma experience_example_not_two_jobs :
  ¬ ∃ U,
      _parse_experience U (experience_example [8226%N])
      = Ok [ {| company := lit "Acme Corp";
                position := lit "Senior Engineer";
                period := lit "01/2020 - present";
                description :=
                  [lit "Built the thing"; lit "Shipped the other thing"] |};
             {| company := lit "Beta Inc"; position := lit "Engineer";
                period := []; description := [] |} ].
Proof.
  intros [U H]. rewrite parse_experience_fold in H.
  let v := eval vm_compute in (split_lines (experience_example [8226%N])) in
  change (split_lines (experience_example [8226%N])) with v in H.
  cbn [fold_left] in H.
  do 7 eval_step H.
  vm_compute in H. discriminate.
Qed.

(** What the code returns on those seven lines: three jobs, the bullet
    lines taken for companies. *)
Lemma experience_example_three_jobs U :
  _parse_experience U (experience_example [8226%N])
  = Ok [ {| company := lit "Acme Corp"; position := lit "Senior Engineer";
            period := lit "01/2020 - present"; description := [] |};
         {| company := [8226%N] ++ lit " Built the thing"; position := [];
            period := []; description := [] |};
         {| company := [8226%N] ++ lit " Shipped the other thing";
            position := lit "Beta Inc"; period := []; description := [] |} ].
Proof.
  destruct (_parse_experience U (experience_example [8226%N])) as [jobs|e] eqn:H.
  - rewrite parse_experience_fold in H.
    let v := eval vm_compute in (split_lines (experience_example [8226%N])) in
    change (split_lines (experience_example [8226%N])) with v in H.
    cbn [fold_left] in H.
    do 7 eval_step H.
    vm_compute in H. injection H as <-. vm_compute. reflexivity.
  - by rewrite parse_experience_fold in H.
Qed.

(** A bullet line of the example, at the start of the loop. *)
Lemma experience_example_one_job_witness :
  startswith (strip (BULLET ++ lit " Built the thing")) BULLET = true
  ∧ ∃ item,
      experience_step ascii_only (BULLET ++ lit " Built the thing") exp_init
      = add_description exp_init item.
Proof.
  split; [reflexivity|].
  exact (proj2 (experience_example_one_job ascii_only)
           (BULLET ++ lit " Built the thing") exp_init eq_refl).
Defined.

(** C2, refuted as stated: the line "a-b/c/d" has no MM/YYYY substring and
    is a date range all the same, whatever the Unicode tables. *)
Lemma date_range_without_date :
  ¬ ∃ U,
      (is_date_range U (lit "a-b/c/d") = true
       ↔ has_mm_yyyy U (lit "a-b/c/d")
         ∧ (has_present U (lit "a-b/c/d")
            ∨ (45%N ∈ lit "a-b/c/d" ∧ 2 ≤ count (lit "a-b/c/d") 47%N))).
Proof.
  intros [U [H _]].
  destruct H as [Hdate _]; [vm_compute; reflexivity|].
  apply search_date in Hdate. vm_compute in Hdate. discriminate.
Qed.

(** The period line of the example is a date range. *)
Lemma date_range_classification_witness :
  nonempty (strip (lit "01/2020 - present")) = true
  ∧ startswith (strip (lit "01/2020 - present")) BULLET = false
  ∧ is_date_range ascii_only (strip (lit "01/2020 - present")) = true
  ∧ experience_step ascii_only (lit "01/2020 - present") exp_init
    = set_period exp_init (strip (lit "01/2020 - present")).
Proof.
  split; [reflexivity|]. split; [reflexivity|]. split; [reflexivity|].
  exact (proj1 (proj2 (date_range_classification ascii_only
                         (lit "01/2020 - present") exp_init eq_refl eq_refl))
           eq_refl).
Defined.

(** C7, refuted as stated: the one-line document "Smith, John" has a name
    and no header, and its contact mapping is not empty: the name line is
    among the lines searched for a location, and it has the shape of one. *)
Lemma name_line_read_as_location :
  ¬ ∃ U r, parse_text U (lit "Smith, John") = Ok r ∧ contact r = ∅.
Proof.
  intros (U & r & Hr & Hc).
  assert (H : (contact <$> (match parse_text U (lit "Smith, John") with
                            | Ok r => Some r | Raise _ => None end))
              = Some {[ "location" := lit "Smith, John" ]})
    by (vm_compute; reflexivity).
  rewrite Hr in H. simpl in H. rewrite Hc in H. discriminate.
Qed.

(** A document that is a name and nothing else. *)
Lemma absent_sections_keep_defaults_witness :
  let lines := split_lines (lit "Jane Doe") in
  let absent h := Forall (fun l => is_header ascii_only h l = false) lines in
  (absent SUMMARY ∧ absent EXPERIENCE ∧ absent EDUCATION ∧ absent SKILLS
   ∧ absent CERTIFICATIONS ∧ absent HONORS_AND_AWARDS)
  ∧ ∃ r, parse_text ascii_only (lit "Jane Doe") = Ok r
         ∧ name r = lit "Jane Doe" ∧ contact r = ∅
         ∧ summary r = [] ∧ experience r = [] ∧ education r = []
         ∧ skills r = ∅ ∧ certifications r = [] ∧ honors_awards r = [].
Proof.
  intros lines absent.
  assert (Habs : ∀ h, h ∈ HEADERS → absent h).
  { intros h Hh. repeat constructor;
      apply bool_decide_eq_false; intros <-; revert Hh; vm_compute;
      intros Hh; repeat (apply elem_of_cons in Hh as [Hh|Hh]; [discriminate|]);
      by apply not_elem_of_nil in Hh. }
  assert (Hin : ∀ h, In h HEADERS → h ∈ HEADERS)
    by (intros h; apply list_elem_of_In).
  split.
  - repeat split; apply Habs, Hin; simpl; auto 10.
  - destruct (absent_sections_keep_defaults ascii_only (lit "Jane Doe"))
      as (r & Hr & Hn & _ & Hc & _ & Hsu & Hex & Hed & Hsk & Hce & Hho).
    exists r. split; [exact Hr|]. split; [exact Hn|]. split; [exact Hc|].
    split; [apply Hsu, Habs, Hin; simpl; auto 10|].
    split; [apply Hex, Habs, Hin; simpl; auto 10|].
    split; [apply Hed, Habs, Hin; simpl; auto 10|].
    split; [apply Hsk, Habs, Hin; simpl; auto 10|].
    split; [apply Hce, Habs, Hin; simpl; auto 10|].
    apply Hho, Habs, Hin; simpl; auto 10.
Defined.

(** A document with the EXPERIENCE header on its lines 1 and 3. *)
Lemma last_header_occurrence_wins_witness :
  let content :=
    join [NEWLINE]
      [lit "Jane Doe"; lit "EXPERIENCE"; lit "Acme Corp"; lit "experience";
       lit "Beta Inc"] in
  let lines := split_lines content in
  (EXPERIENCE ∈ HEADERS
   ∧ (∃ l, lines !! 3 = Some l ∧ is_header ascii_only EXPERIENCE l = true)
   ∧ Forall (fun l => is_header ascii_only EXPERIENCE l = false) (drop 4 lines))
  ∧ (EXPERIENCE, 3%Z) ∈ scan_lines ascii_only lines 0 section_headers_init
  ∧ ∃ (sections : gmap str str) (e : nat),
      extract_sections ascii_only content = Ok sections
      ∧ sections !! EXPERIENCE = Some (section_text lines 4 (Z.of_nat e)).
Proof.
  intros content lines.
  assert (H1 : EXPERIENCE ∈ HEADERS)
    by (apply list_elem_of_In; simpl; auto).
  assert (H2 : ∃ l, lines !! 3 = Some l ∧ is_header ascii_only EXPERIENCE l = true)
    by (eexists; split; reflexivity).
  assert (H3 : Forall (fun l => is_header ascii_only EXPERIENCE l = false)
                 (drop 4 lines))
    by (repeat constructor).
  split; [done|].
  destruct (last_header_occurrence_wins ascii_only content EXPERIENCE 3 H1 H2 H3)
    as (Hscan & sections & e & Hok & Hsec & _).
  split; [exact Hscan|]. exists sections, e. split; [exact Hok | exact Hsec].
Defined.

(** A bullet before the first provider. *)
Lemma certifications_have_provider_witness :
  let pre := BULLET ++ lit " Orphan certificate" in
  let rest := join [NEWLINE] [lit "Amazon"; BULLET ++ lit " Solutions Architect"] in
  Forall (fun l => bullet_or_blank l = true) (split_lines pre)
  ∧ _parse_certifications (pre ++ NEWLINE :: rest) = _parse_certifications rest
  ∧ _parse_honors_awards (pre ++ NEWLINE :: rest) = _parse_honors_awards rest
  ∧ _parse_certifications pre = [] ∧ _parse_honors_awards pre = [].
Proof.
  intros pre rest.
  assert (H : Forall (fun l => bullet_or_blank l = true) (split_lines pre))
    by (repeat constructor).
  split; [exact H|].
  destruct certifications_have_provider as (_ & _ & Hskip & Hnone).
  destruct (Hskip pre rest H) as [Hc Ha].
  destruct (Hnone pre H) as [Hc' Ha'].
  repeat split; assumption.
Defined.

(** * Further properties of the parser *)

Section MoreProperties.
Context (U : UnicodeDB).

(** ** The experience loop *)

(** The four ways through the body of the loop. *)
Lemma experience_step_cases raw st :
  (nonempty (strip raw) = false ∧ experience_step U raw st = st)
  ∨ (is_bullet raw = true
     ∧ experience_step U raw st = add_description st (bullet_item raw))
  ∨ (is_bullet raw = false ∧ is_plain_line U raw = false
     ∧ experience_step U raw st = set_period st (strip raw))
  ∨ (is_bullet raw = false ∧ is_plain_line U raw = true
     ∧ experience_step U raw st = new_job_or_slot (strip raw) st).
Proof.
  unfold experience_step, is_bullet, is_plain_line, bullet_item. cbv zeta.
  destruct (nonempty (strip raw)) eqn:Hne; cbn [negb andb]; [|by left].
  destruct (startswith (strip raw) BULLET) eqn:Hb; cbn [negb andb];
    [right; left; done|].
  destruct (is_date_range U (strip raw)) eqn:Hd; cbn [negb];
    [right; right; left; done | right; right; right; done].
Qed.

Lemma is_bullet_nonempty raw : is_bullet raw = true → nonempty (strip raw) = true.
Proof. unfold is_bullet. by destruct (strip raw). Qed.

Lemma is_plain_line_nonempty raw :
  is_plain_line U raw = true → nonempty (strip raw) = true.
Proof. unfold is_plain_line. by destruct (nonempty (strip raw)). Qed.

(** The branch of the plain lines: a new job, a slot filled, or nothing. *)
Lemma new_job_or_slot_cases line st :
  (∃ c, st_company st = Some c ∧ nonempty c = true
        ∧ more_than_two_words line = true
        ∧ new_job_or_slot line st
          = {| st_company := Some line; st_position := None;
               st_period := None; st_description := [];
               st_entries := st_entries st ++ [job_of c st] |})
  ∨ (truthy (st_company st) = false
     ∧ new_job_or_slot line st
       = {| st_company := Some line; st_position := st_position st;
            st_period := st_period st; st_description := st_description st;
            st_entries := st_entries st |})
  ∨ (truthy (st_company st) = true ∧ more_than_two_words line = false
     ∧ st_company (new_job_or_slot line st) = st_company st
     ∧ st_period (new_job_or_slot line st) = st_period st
     ∧ st_description (new_job_or_slot line st) = st_description st
     ∧ st_entries (new_job_or_slot line st) = st_entries st).
Proof.
  unfold new_job_or_slot, fill_slot.
  destruct (st_company st) as [c|] eqn:Hc; cbn [truthy negb].
  - destruct (nonempty c) eqn:Hne; cbn [andb negb].
    + destruct (more_than_two_words line) eqn:Hw.
      * left. eauto 10.
      * right. right. by destruct (truthy (st_position st)).
    + right. left. done.
  - right. left. done.
Qed.

(** Once a company is set, it stays set. *)
Lemma experience_step_company raw st :
  truthy (st_company st) = true →
  truthy (st_company (experience_step U raw st)) = true.
Proof.
  intros Hc.
  destruct (experience_step_cases raw st)
    as [[_ ->] | [[_ ->] | [(_ & _ & ->) | (_ & Hp & ->)]]]; try done.
  destruct (new_job_or_slot_cases (strip raw) st)
    as [(c & _ & _ & _ & ->) | [[Hno _] | (_ & _ & -> & _)]];
    [|congruence|done].
  simpl. by apply is_plain_line_nonempty in Hp.
Qed.

(** A plain line sets the company if there is none. *)
Lemma experience_step_plain raw st :
  is_plain_line U raw = true →
  truthy (st_company (experience_step U raw st)) = true.
Proof.
  intros Hp. pose proof (is_plain_line_nonempty _ Hp) as Hne.
  destruct (experience_step_cases raw st)
    as [[? _] | [[Hb _] | [(_ & ? & _) | (_ & _ & ->)]]]; try congruence.
  - unfold is_bullet in Hb. unfold is_plain_line in Hp.
    rewrite Hb, Hne in Hp. done.
  - destruct (new_job_or_slot_cases (strip raw) st)
      as [(c & _ & _ & _ & ->) | [[_ ->] | (Hc & _ & -> & _)]]; done.
Qed.

(** No other line touches the company or the saved jobs. *)
Lemma experience_step_not_plain raw st :
  is_plain_line U raw = false →
  st_company (experience_step U raw st) = st_company st
  ∧ st_entries (experience_step U raw st) = st_entries st.
Proof.
  intros Hp.
  destruct (experience_step_cases raw st)
    as [[_ ->] | [[_ ->] | [(_ & _ & ->) | (_ & ? & _)]]]; try done.
  congruence.
Qed.

Lemma fold_step_company lines st :
  truthy (st_company st) = true →
  truthy (st_company
            (fold_left (fun st raw => experience_step U raw st) lines st)) = true.
Proof.
  revert st. induction lines as [|raw lines IH]; intros st Hc; simpl; [done|].
  by apply IH, experience_step_company.
Qed.

(** Saved jobs come with a company. *)
Lemma fold_step_entries_company lines st :
  (st_entries st ≠ [] → truthy (st_company st) = true) →
  let st' := fold_left (fun st raw => experience_step U raw st) lines st in
  st_entries st' ≠ [] → truthy (st_company st') = true.
Proof.
  revert st. induction lines as [|raw lines IH]; intros st Hinv; simpl; [done|].
  apply IH. intros Hne.
  destruct (truthy (st_company st)) eqn:Hc;
    [by apply experience_step_company|].
  destruct (is_plain_line U raw) eqn:Hp; [by apply experience_step_plain|].
  destruct (experience_step_not_plain raw st Hp) as [_ He].
  rewrite He in Hne. by apply Hinv in Hne.
Qed.

Lemma experience_step_entries_company raw st :
  Forall (fun j => company j ≠ []) (st_entries st) →
  Forall (fun j => company j ≠ []) (st_entries (experience_step U raw st)).
Proof.
  intros Hall. destruct (is_plain_line U raw) eqn:Hp.
  - destruct (experience_step_cases raw st)
      as [[? _] | [[Hb _] | [(_ & ? & _) | (_ & _ & ->)]]]; try congruence.
    + apply is_plain_line_nonempty in Hp. congruence.
    + unfold is_plain_line, is_bullet in *. rewrite Hb in Hp.
      by destruct (nonempty (strip raw)).
    + destruct (new_job_or_slot_cases (strip raw) st)
        as [(c & _ & Hc & _ & ->) | [[_ ->] | (_ & _ & _ & _ & _ & ->)]];
        try done.
      simpl. apply Forall_app. split; [done|].
      constructor; [|constructor]. simpl. by apply nonempty_true.
  - by destruct (experience_step_not_plain raw st Hp) as [_ ->].
Qed.

(** X1.  Every job that [_parse_experience] returns has a company that is
    not empty: a job is saved only under [if company]. *)
Theorem jobs_have_company content :
  ∃ jobs, _parse_experience U content = Ok jobs
          ∧ Forall (fun j => company j ≠ []) jobs.
Proof.
  rewrite parse_experience_fold. eexists. split; [done|].
  assert (Hfold : ∀ lines st,
            Forall (fun j => company j ≠ []) (st_entries st) →
            Forall (fun j => company j ≠ [])
              (st_entries (fold_left (fun st raw => experience_step U raw st)
                             lines st))).
  { induction lines as [|raw lines IH]; intros st Hst; simpl; [done|].
    by apply IH, experience_step_entries_company. }
  specialize (Hfold (split_lines content) exp_init (Forall_nil_2 _)).
  unfold last_job.
  destruct (st_company _) as [c|] eqn:Hc; [|done].
  destruct (nonempty c) eqn:Hne; [|done].
  apply Forall_app. split; [done|].
  constructor; [|constructor]. simpl. by apply nonempty_true.
Qed.

(** Every pass keeps the description items and adds that of a bullet. *)
Lemma experience_step_descriptions raw st :
  all_descriptions (experience_step U raw st)
  = all_descriptions st ++ (if is_bullet raw then [bullet_item raw] else []).
Proof.
  unfold all_descriptions.
  destruct (experience_step_cases raw st)
    as [[Hne ->] | [[Hb ->] | [(Hb & _ & ->) | (Hb & _ & ->)]]].
  - unfold is_bullet. destruct (strip raw); [|done]. simpl. by rewrite !app_nil_r.
  - rewrite Hb. simpl. by rewrite app_assoc.
  - rewrite Hb. simpl. by rewrite !app_nil_r.
  - rewrite Hb, app_nil_r.
    destruct (new_job_or_slot_cases (strip raw) st)
      as [(c & _ & _ & _ & ->) | [[_ ->] | (_ & _ & _ & _ & -> & ->)]];
      try done.
    simpl. rewrite List.map_app, List.concat_app. simpl.
    by rewrite !app_nil_r.
Qed.

Lemma fold_step_descriptions lines st :
  all_descriptions (fold_left (fun st raw => experience_step U raw st) lines st)
  = all_descriptions st ++ List.map bullet_item (List.filter is_bullet lines).
Proof.
  revert st. induction lines as [|raw lines IH]; intros st; simpl.
  - by rewrite app_nil_r.
  - rewrite IH, experience_step_descriptions.
    destruct (is_bullet raw); simpl; [by rewrite <- app_assoc|].
    by rewrite app_nil_r.
Qed.

(** X2.  No bullet is lost or moved when the section has a job: the
    descriptions of the jobs, one after the other, are the items of the
    bullet lines of the section in their order. *)
Theorem experience_bullets_conserved content :
  ∃ jobs, _parse_experience U content = Ok jobs
          ∧ (jobs ≠ [] →
             List.concat (List.map description jobs)
             = List.map bullet_item (List.filter is_bullet (split_lines content))).
Proof.
  rewrite parse_experience_fold. eexists. split; [done|].
  pose proof (fold_step_descriptions (split_lines content) exp_init) as Hdesc.
  pose proof (fold_step_entries_company (split_lines content) exp_init) as Hinv.
  cbv zeta in Hinv. unfold all_descriptions in Hdesc. simpl in Hdesc.
  set (st := fold_left _ _ _) in *. unfold last_job.
  destruct (st_company st) as [c|] eqn:Hc; simpl in Hinv.
  - destruct (nonempty c) eqn:Hne.
    + intros _. rewrite List.map_app, List.concat_app. simpl.
      by rewrite app_nil_r.
    + intros Hjobs. specialize (Hinv ltac:(done) Hjobs). done.
  - intros Hjobs. specialize (Hinv ltac:(done) Hjobs). done.
Qed.

Lemma fold_step_not_plain lines st :
  Forall (fun raw => is_plain_line U raw = false) lines →
  let st' := fold_left (fun st raw => experience_step U raw st) lines st in
  st_company st' = st_company st ∧ st_entries st' = st_entries st.
Proof.
  intros Hall. revert st.
  induction Hall as [|raw lines Hraw _ IH]; intros st; simpl; [done|].
  destruct (IH (experience_step U raw st)) as [-> ->].
  by apply experience_step_not_plain.
Qed.

(** X3.  The section gives no job exactly when it has no plain line, that
    is when each of its lines is blank, a bullet or a date range: bullets
    and dates alone are dropped. *)
Theorem experience_empty_iff content :
  ∃ jobs, _parse_experience U content = Ok jobs
          ∧ (jobs = []
             ↔ Forall (fun raw => is_plain_line U raw = false)
                 (split_lines content)).
Proof.
  rewrite parse_experience_fold. eexists. split; [done|]. split.
  - intros Hjobs. apply Forall_forall. intros raw Hin.
    destruct (is_plain_line U raw) eqn:Hp; [|done]. exfalso.
    apply list_elem_of_split in Hin as (pre & post & Hsplit).
    rewrite Hsplit, fold_left_app in Hjobs. simpl in Hjobs.
    pose proof (fold_step_company post _
                  (experience_step_plain raw
                     (fold_left (fun st raw => experience_step U raw st)
                        pre exp_init) Hp)) as Hc.
    unfold last_job in Hjobs.
    destruct (st_company _) as [c|]; [|done]. simpl in Hc. rewrite Hc in Hjobs.
    by destruct (st_entries _).
  - intros Hall.
    destruct (fold_step_not_plain _ exp_init Hall) as [Hc He].
    unfold last_job. by rewrite Hc, He.
Qed.

(** With a company set, a pass saves a job exactly on a long line. *)
Lemma experience_step_entries raw st c :
  st_company st = Some c → nonempty c = true →
  st_entries (experience_step U raw st)
  = st_entries st ++ (if is_long_line U raw then [job_of c st] else []).
Proof.
  intros Hc Hne. unfold is_long_line.
  destruct (is_plain_line U raw) eqn:Hp; cbn [andb].
  - destruct (experience_step_cases raw st)
      as [[? _] | [[Hb _] | [(_ & ? & _) | (_ & _ & ->)]]]; try congruence.
    + apply is_plain_line_nonempty in Hp. congruence.
    + unfold is_plain_line, is_bullet in *. rewrite Hb in Hp.
      by destruct (nonempty (strip raw)).
    + destruct (new_job_or_slot_cases (strip raw) st)
        as [(c' & Hc' & _ & -> & ->) | [[Hno _] | (_ & -> & _ & _ & _ & ->)]].
      * simpl. congruence.
      * rewrite Hc in Hno. simpl in Hno. congruence.
      * by rewrite app_nil_r.
  - destruct (experience_step_not_plain raw st Hp) as [_ ->].
    by rewrite app_nil_r.
Qed.

(** The loop from a state with a company: one job more for each long line,
    and the company of the first job to come is the current one. *)
Lemma fold_step_jobs lines st c :
  st_company st = Some c → nonempty c = true →
  let st' := fold_left (fun st raw => experience_step U raw st) lines st in
  ∃ added,
    last_job st' = st_entries st ++ added
    ∧ length added = S (length (List.filter (is_long_line U) lines))
    ∧ (∀ j, head added = Some j → company j = c).
Proof.
  revert st c. induction lines as [|raw lines IH]; intros st c Hc Hne; simpl.
  - unfold last_job. rewrite Hc, Hne. exists [job_of c st].
    split; [done|]. split; [done|]. by intros j [= <-].
  - pose proof (experience_step_entries raw st c Hc Hne) as Hent.
    pose proof (experience_step_company raw st) as Hcomp.
    rewrite Hc in Hcomp. specialize (Hcomp Hne).
    destruct (st_company (experience_step U raw st)) as [c'|] eqn:Hc'; [|done].
    simpl in Hcomp.
    destruct (IH _ c' Hc' Hcomp) as (added & Hlast & Hlen & Hhead).
    rewrite Hlast, Hent. destruct (is_long_line U raw) eqn:Hlong.
    + exists (job_of c st :: added). rewrite <- app_assoc. simpl.
      split; [done|]. split; [by rewrite Hlen|]. by intros j [= <-].
    + exists added. rewrite app_nil_r. split; [done|]. split; [done|].
      intros j Hj. rewrite (Hhead j Hj).
      unfold is_long_line in Hlong.
      destruct (is_plain_line U raw) eqn:Hp.
      * simpl in Hlong.
        destruct (experience_step_cases raw st)
          as [[? _] | [[Hb _] | [(_ & ? & _) | (_ & _ & Hstep)]]]; try congruence.
        -- apply is_plain_line_nonempty in Hp. congruence.
        -- unfold is_plain_line, is_bullet in *. rewrite Hb in Hp.
           by destruct (nonempty (strip raw)).
        -- rewrite Hstep in Hc'.
           destruct (new_job_or_slot_cases (strip raw) st)
             as [(? & _ & _ & ? & _) | [[Hno _] | (_ & _ & Hsame & _)]].
           ++ congruence.
           ++ rewrite Hc in Hno. simpl in Hno. congruence.
           ++ congruence.
      * destruct (experience_step_not_plain raw st Hp) as [Hsame _]. congruence.
Qed.

(** X4.  The number of jobs: when the section has a plain line, the first
    of them is the company of the first job, and there is one job more for
    each later plain line of more than two words, and no other. *)
Theorem experience_job_count content pre first rest :
  split_lines content = pre ++ first :: rest →
  Forall (fun raw => is_plain_line U raw = false) pre →
  is_plain_line U first = true →
  ∃ j jobs,
    _parse_experience U content = Ok (j :: jobs)
    ∧ company j = strip first
    ∧ length jobs = length (List.filter (is_long_line U) rest).
Proof.
  intros Hsplit Hpre Hfirst. rewrite parse_experience_fold, Hsplit.
  rewrite fold_left_app. simpl.
  destruct (fold_step_not_plain pre exp_init Hpre) as [Hc He].
  set (st0 := fold_left _ pre exp_init) in *.
  assert (Hstep : st_company (experience_step U first st0) = Some (strip first)
                  ∧ st_entries (experience_step U first st0) = []).
  { destruct (experience_step_cases first st0)
      as [[? _] | [[Hb _] | [(_ & ? & _) | (_ & _ & ->)]]]; try congruence.
    - apply is_plain_line_nonempty in Hfirst. congruence.
    - unfold is_plain_line, is_bullet in *. rewrite Hb in Hfirst.
      by destruct (nonempty (strip first)).
    - destruct (new_job_or_slot_cases (strip first) st0)
        as [(c & Hc' & _) | [[_ ->] | (Hno & _)]].
      + rewrite Hc in Hc'. done.
      + simpl. by rewrite He.
      + rewrite Hc in Hno. done. }
  destruct Hstep as [Hc1 He1].
  destruct (fold_step_jobs rest _ (strip first) Hc1
              (is_plain_line_nonempty _ Hfirst))
    as (added & Hlast & Hlen & Hhead).
  cbv zeta in Hlast. rewrite Hlast, He1. simpl.
  destruct added as [|j jobs]; [done|].
  exists j, jobs. split; [done|]. split; [by apply Hhead|].
  simpl in Hlen. lia.
Qed.

(** ** Certifications, honors and awards: no bullet is lost *)





(** ** Trimming and splitting *)

Lemma lstrip_suffix s : ∃ pre, s = pre ++ lstrip s.
Proof.
  induction s as [|c s [pre IH]]; simpl; [by exists []|].
  destruct (isspace c); [|by exists []].
  exists (c :: pre). by rewrite IH at 1.
Qed.

(** [strip] keeps a run of the characters of the string. *)
Lemma strip_infix s : ∃ pre post, s = pre ++ strip s ++ post.
Proof.
  unfold strip, rstrip.
  destruct (lstrip_suffix s) as [pre Hpre].
  destruct (lstrip_suffix (rev (lstrip s))) as [post Hpost].
  exists pre, (rev post). rewrite Hpre at 1. f_equal.
  rewrite <- (rev_involutive (lstrip s)), Hpost at 1.
  by rewrite rev_app_distr.
Qed.

Lemma strip_Forall (P : char → Prop) s : Forall P s → Forall P (strip s).
Proof.
  destruct (strip_infix s) as (pre & post & Heq). intros H.
  rewrite Heq in H. by apply Forall_app in H as [_ [H _]%Forall_app].
Qed.

Lemma lstrip_id s :
  (∀ c t, s = c :: t → isspace c = false) → lstrip s = s.
Proof.
  destruct s as [|c t]; [done|]. intros H. simpl. by rewrite (H c t).
Qed.

Lemma strip_head s c t : strip s = c :: t → isspace c = false.
Proof.
  unfold strip, rstrip. intros H.
  destruct (lstrip_suffix (rev (lstrip s))) as [pre Hpre].
  apply (f_equal (@rev _)) in Hpre.
  rewrite rev_involutive, rev_app_distr, H in Hpre.
  simpl in Hpre. by apply lstrip_head in Hpre.
Qed.

(** Trimming twice is trimming once. *)
Lemma strip_strip s : strip (strip s) = strip s.
Proof.
  assert (Hl : lstrip (strip s) = strip s).
  { apply lstrip_id. intros c t. apply strip_head. }
  unfold strip at 1. unfold rstrip. rewrite Hl.
  rewrite lstrip_id; [apply rev_involutive|].
  intros c t Hrev. apply (strip_last s).
  apply (f_equal (@rev _)) in Hrev. rewrite rev_involutive in Hrev.
  rewrite Hrev. simpl. apply last_snoc.
Qed.

(** No piece of a split holds a separator. *)
Lemma split_on_no_sep sep s :
  Forall (fun piece => Forall (fun c => sep c = false) piece) (split_on sep s).
Proof.
  induction s as [|c s IH]; simpl; [by repeat constructor|].
  destruct (sep c) eqn:Hc; [by constructor|].
  destruct (split_on sep s) as [|piece pieces]; [by repeat constructor|].
  apply Forall_cons in IH as [Hpiece Hpieces].
  constructor; [by constructor | done].
Qed.

Lemma split_on_none sep s :
  Forall (fun c => sep c = false) s → split_on sep s = [s].
Proof.
  induction 1 as [|c s Hc _ IH]; simpl; [done|]. by rewrite Hc, IH.
Qed.

(** Joining lines and splitting the text again gives the lines back. *)
Lemma split_lines_join (ls : list str) :
  ls ≠ [] →
  Forall (fun l => Forall (fun c => N.eqb NEWLINE c = false) l) ls →
  split_lines (join [NEWLINE] ls) = ls.
Proof.
  intros Hne Hall. induction Hall as [|l ls Hl Hls IH]; [done|].
  destruct ls as [|l' ls'].
  - simpl. by apply split_on_none.
  - change (join [NEWLINE] (l :: l' :: ls'))
      with (l ++ NEWLINE :: join [NEWLINE] (l' :: ls')).
    rewrite split_lines_app, IH by done.
    unfold split_lines. by rewrite split_on_none.
Qed.

(** ** Skills *)

Lemma add_skills_clean (P : str → Prop) (tokens : list str) (cat : str)
  (skills skills' : gmap str (list str)) :
  Forall (fun t => nonempty (strip t) = true → P (strip t)) tokens →
  add_skills tokens cat skills = Ok skills' →
  (∀ k bucket, skills !! k = Some bucket → Forall P bucket) →
  ∀ k bucket, skills' !! k = Some bucket → Forall P bucket.
Proof.
  intros Htok. revert skills.
  induction Htok as [|t tokens Ht _ IH]; intros skills; simpl.
  - by intros [= <-].
  - destruct (nonempty (strip t)) eqn:Hne; [|by apply IH].
    unfold getitem. destruct (skills !! cat) as [b|] eqn:Hcat; [|done]. simpl.
    intros Hrest Hinv. apply (IH _ Hrest). intros k bucket.
    rewrite lookup_insert. case_decide as Hk.
    + intros [= <-]. apply Forall_app. split; [by apply (Hinv cat)|].
      constructor; [by apply Ht | constructor].
    + apply Hinv.
Qed.

Lemma skills_loop_clean (P : str → Prop) (lines : list str) (cat : str)
  (skills skills' : gmap str (list str)) :
  (∀ line t, t ∈ split_on comma_or_pipe (strip line) →
             nonempty (strip t) = true → P (strip t)) →
  skills_loop lines cat skills = Ok skills' →
  (∀ k bucket, skills !! k = Some bucket → Forall P bucket) →
  ∀ k bucket, skills' !! k = Some bucket → Forall P bucket.
Proof.
  intros HP. revert cat skills.
  induction lines as [|line lines IH]; intros cat skills; simpl.
  - by intros [= <-].
  - destruct (nonempty (strip line)); simpl; [|by apply IH].
    destruct (endswith_char (strip line) 58).
    + intros Hloop Hinv. apply (IH _ _ Hloop). intros k bucket.
      rewrite lookup_insert. case_decide; [by intros [= <-] | apply Hinv].
    + destruct (add_skills _ cat (ensure_bucket cat skills)) as [sk1|] eqn:Hadd;
        [|done].
      simpl. intros Hloop Hinv. apply (IH _ _ Hloop).
      apply (add_skills_clean P _ _ _ _ (proj2 (Forall_forall _ _)
               (fun t Ht => HP line t Ht)) Hadd).
      intros k bucket. unfold ensure_bucket.
      destruct (skills !! cat) eqn:Hcat; [apply Hinv|].
      rewrite lookup_insert. case_decide; [by intros [= <-] | apply Hinv].
Qed.

(** X7.  Every skill that [_parse_skills] stores is a trimmed token that is
    not empty and holds neither a comma nor a pipe. *)
Theorem skills_are_clean content :
  ∃ sk, _parse_skills content = Ok sk
        ∧ ∀ cat bucket, sk !! cat = Some bucket →
            Forall (fun skill =>
                      skill ≠ []
                      ∧ strip skill = skill
                      ∧ Forall (fun c => comma_or_pipe c = false) skill)
              bucket.
Proof.
  destruct (parse_skills_ok content) as [sk Hsk]. exists sk. split; [done|].
  eapply skills_loop_clean; [|exact Hsk|done].
  intros line t Ht Hne. split; [by apply nonempty_true|].
  split; [apply strip_strip|]. apply strip_Forall.
  pose proof (split_on_no_sep comma_or_pipe (strip line)) as Hall.
  rewrite Forall_forall in Hall. by apply Hall.
Qed.

Lemma add_skills_keys (tokens : list str) (cat : str)
  (skills skills' : gmap str (list str)) (k : str) :
  add_skills tokens cat skills = Ok skills' →
  is_Some (skills' !! k) → is_Some (skills !! k).
Proof.
  revert skills. induction tokens as [|t tokens IH]; intros skills; simpl.
  - by intros [= <-].
  - destruct (nonempty (strip t)); [|by apply IH].
    unfold getitem. destruct (skills !! cat) as [b|] eqn:Hcat; [|done]. simpl.
    intros Hrest Hk. apply (IH _ Hrest) in Hk.
    rewrite lookup_insert in Hk. case_decide; [subst; eauto | done].
Qed.

Lemma skills_loop_keys (lines : list str) (cat : str)
  (skills skills' : gmap str (list str)) (k : str) :
  skills_loop lines cat skills = Ok skills' →
  is_Some (skills' !! k) →
  is_Some (skills !! k) ∨ k = cat
  ∨ Exists (fun line => names_category k line = true) lines.
Proof.
  revert cat skills. induction lines as [|line lines IH]; intros cat skills; simpl.
  - intros [= <-]. auto.
  - unfold names_category at 1.
    destruct (nonempty (strip line)); simpl.
    + destruct (endswith_char (strip line) 58) eqn:Hcolon; simpl.
      * intros Hloop Hk.
        destruct (IH _ _ Hloop Hk) as [Hin | [-> | Hex]].
        -- rewrite lookup_insert in Hin. case_decide as Heq; [|auto].
           right. right. apply Exists_cons_hd.
           unfold names_category. rewrite Hcolon. by apply bool_decide_eq_true.
        -- right. right. apply Exists_cons_hd.
           unfold names_category. rewrite Hcolon. by apply bool_decide_eq_true.
        -- right. right. by apply Exists_cons_tl.
      * destruct (add_skills _ cat (ensure_bucket cat skills)) as [sk1|] eqn:Hadd;
          [|done].
        simpl. intros Hloop Hk.
        destruct (IH _ _ Hloop Hk) as [Hin | [-> | Hex]]; [|auto|].
        -- apply (add_skills_keys _ _ _ _ _ Hadd) in Hin.
           unfold ensure_bucket in Hin.
           destruct (skills !! cat) eqn:Hcat; [auto|].
           rewrite lookup_insert in Hin. case_decide; [subst; auto | auto].
        -- right. right. by apply Exists_cons_tl.
    + intros Hloop Hk.
      destruct (IH _ _ Hloop Hk) as [Hin | [-> | Hex]]; [auto | auto |].
      right. right. by apply Exists_cons_tl.
Qed.

(** X8.  The categories of the result are named by the section: each is
    the text before the colon of a line that ends in a colon, or it is
    "General", the category of the lines before the first such line. *)
Theorem skill_categories_named content :
  ∃ sk, _parse_skills content = Ok sk
        ∧ ∀ k, is_Some (sk !! k) →
            k = lit "General"
            ∨ Exists (fun line => names_category k line = true)
                (split_lines content).
Proof.
  destruct (parse_skills_ok content) as [sk Hsk]. exists sk. split; [done|].
  intros k Hk.
  destruct (skills_loop_keys _ _ _ _ _ Hsk Hk) as [Hin | [-> | Hex]]; auto.
  rewrite lookup_empty in Hin. by destruct Hin.
Qed.

(** ** Sections *)

(** X9.  The sections dictionary has an entry exactly for the headers that
    are on a line of the document: no section is made up, and none that is
    announced is missing, even when it is empty. *)
Theorem section_exists_iff content (h : str) :
  ∃ sections : gmap str str,
    extract_sections U content = Ok sections
    ∧ (is_Some (sections !! h)
       ↔ h ∈ HEADERS
         ∧ Exists (fun l => is_header U h l = true) (split_lines content)).
Proof.
  exists (sections_of U content). split; [apply extract_sections_of|].
  unfold sections_of. cbv zeta. split.
  - intros Hsome.
    destruct (last_occurrence U h (split_lines content) 0) as [j|] eqn:Hlast.
    + assert (h ∈ HEADERS) as Hh.
      { destruct (decide (h ∈ HEADERS)) as [|Hno]; [done|]. exfalso.
        rewrite assign_other in Hsome; [by destruct Hsome|].
        intros Hin. apply list_elem_of_In, List.in_map_iff in Hin
          as ([p h'] & Heq & Hin).
        simpl in Heq. subst h'. apply list_elem_of_In in Hin.
        rewrite sorted_Permutation in Hin.
        by apply elem_of_found_headers in Hin as (? & _). }
      split; [done|].
      apply last_occurrence_Some in Hlast as (_ & (l & Hl & Hhl) & _).
      apply Exists_exists. exists l. split; [|done].
      by apply list_elem_of_lookup_2 in Hl.
    + rewrite (sections_absent U _ _ Hlast) in Hsome. by destruct Hsome.
  - intros [Hh Hex].
    destruct (last_occurrence U h (split_lines content) 0) as [j|] eqn:Hlast.
    + destruct (sections_last_occurrence U _ _ _ Hh Hlast) as (e & -> & _). eauto.
    + apply last_occurrence_None in Hlast. apply Exists_exists in Hex
        as (l & Hin & Hl).
      rewrite Forall_forall in Hlast. specialize (Hlast l Hin). congruence.
Qed.

(** X10.  What a sub-parser splits into lines is what the segmenter kept:
    the text of a section, split on newlines, is the list of the lines of
    its span that are not blank; and the text is empty when the span has no
    such line. *)
Theorem section_lines_not_blank content (a b : Z) :
  let lines := split_lines content in
  let kept := List.filter (fun l => nonempty (strip l)) (slice lines a b) in
  (kept = [] → section_text lines a b = [])
  ∧ (kept ≠ [] → split_lines (section_text lines a b) = kept).
Proof.
  intros lines kept. unfold section_text. cbv zeta. fold kept. split.
  - by intros ->.
  - intros Hne. apply split_lines_join; [done|].
    apply Forall_forall. intros l Hl.
    apply list_elem_of_In, List.filter_In in Hl as [Hl _].
    unfold slice in Hl. apply list_elem_of_In in Hl.
    apply subseteq_take, subseteq_drop in Hl.
    pose proof (split_on_no_sep (N.eqb NEWLINE) content) as Hall.
    rewrite Forall_forall in Hall. by apply Hall.
Qed.

(** X11.  The education of a parsed record is empty or one entry, and the
    entry has the fixed institution "Education", a degree that is not
    empty, an empty period and no details; it is empty when the document
    has no EDUCATION line. *)
Theorem education_at_most_one text :
  ∃ r, parse_text U text = Ok r
       ∧ length (education r) ≤ 1
       ∧ Forall (fun e => institution e = lit "Education" ∧ degree e ≠ []
                          ∧ edu_period e = [] ∧ details e = [])
           (education r)
       ∧ (Forall (fun l => is_header U EDUCATION l = false) (split_lines text) →
          education r = []).
Proof.
  rewrite parse_text_eq. eexists. split; [done|].
  cbn [parsed_record education __init__ resume_data].
  destruct (sections_of U text !! EDUCATION) as [t|] eqn:Hsec; simpl.
  - unfold _parse_education. destruct (nonempty t) eqn:Ht; simpl.
    + split; [lia|]. split.
      * constructor; [|constructor]. simpl. split; [done|].
        split; [by apply nonempty_true | done].
      * intros Hall. apply (last_occurrence_None U _ _ 0) in Hall.
        pose proof (sections_absent U _ _ Hall) as Hnone.
        unfold sections_of in Hsec. cbv zeta in Hsec. congruence.
    + split; [lia|]. split; [constructor | done].
  - split; [lia|]. split; [constructor | done].
Qed.

(** ** The shape of what the patterns match *)

Lemma run_length_prefix p bound s n :
  n ≤ run_length p bound s →
  Forall (fun c => p c = true) (take n s)
  ∧ n ≤ length s
  ∧ (∀ b, bound = Some b → n ≤ b).
Proof.
  revert bound n. induction s as [|c s IH]; intros bound n Hn.
  - assert (n = 0) as ->. { destruct bound as [[|?]|]; simpl in Hn; lia. }
    split; [constructor|]. split; [simpl; lia | intros; lia].
  - destruct n as [|n]; [split; [constructor|]; split; [simpl; lia | intros; lia]|].
    destruct bound as [[|b]|]; simpl in Hn; [lia| |].
    + destruct (p c) eqn:Hc; [|lia].
      destruct (IH (Some b) n) as (Hall & Hlen & Hb); [lia|].
      split; [simpl; by constructor|]. split; [simpl; lia|].
      intros b' [= <-]. specialize (Hb b eq_refl). lia.
    + destruct (p c) eqn:Hc; [|lia].
      destruct (IH None n) as (Hall & Hlen & Hb); [lia|].
      split; [simpl; by constructor|]. split; [simpl; lia | done].
Qed.

(** The matcher is sound: what it matches is a sequence of runs, one for
    each atom of the pattern. *)
Lemma match_here_in_lang re fin s m :
  match_here re fin s = Some m → in_lang re (take m s).
Proof.
  revert s m. induction re as [|a re IH]; intros s m; simpl.
  - destruct (fin s); [|done]. by intros [= <-].
  - intros H. apply give_back_Some in H as (n & m' & [Hlo Hn] & Hk & ->).
    destruct (run_length_prefix _ _ _ _ Hn) as (Hall & Hlen & Hb).
    exists (take n s), (take m' (drop n s)).
    split; [by rewrite take_take_drop|].
    rewrite length_take_le by done.
    split; [done|]. split; [done|]. split; [done|]. by apply IH.
Qed.

Lemma search_in_lang re s g : search re s = Some g → in_lang re g.
Proof.
  intros H. apply search_leftmost in H as (pre & post & _ & Hm & _).
  apply match_here_in_lang in Hm. by rewrite take_app_length in Hm.
Qed.

(** A run of an atom that matches one character. *)
Lemma run_of_one (p : char → bool) (run : str) :
  1 ≤ length run → (∀ b, Some 1 = Some b → length run ≤ b) →
  ∃ c, run = [c].
Proof.
  intros Hlo Hhi. specialize (Hhi 1 eq_refl).
  destruct run as [|c [|]]; simpl in *; try lia. eauto.
Qed.

Lemma contact_of_email top_lines g :
  contact_of U top_lines ∅ !! "email" = Some g →
  search (EMAIL_RE U) (join [NEWLINE] top_lines) = Some g.
Proof.
  unfold contact_of. cbv zeta. rewrite !lookup_set_if_found.
  repeat (case_decide; try discriminate).
  rewrite lookup_empty. by destruct (search _ _).
Qed.

Lemma contact_of_phone top_lines g :
  contact_of U top_lines ∅ !! "phone" = Some g →
  search (PHONE_RE U) (join [NEWLINE] top_lines) = Some g.
Proof.
  unfold contact_of. cbv zeta. rewrite !lookup_set_if_found.
  repeat (case_decide; try discriminate).
  rewrite lookup_empty. by destruct (search (PHONE_RE U) _).
Qed.

Lemma contact_of_location top_lines g :
  contact_of U top_lines ∅ !! "location" = Some g →
  find_location top_lines = Some g.
Proof.
  unfold contact_of. cbv zeta. rewrite !lookup_set_if_found.
  repeat (case_decide; try discriminate).
  rewrite lookup_empty. by destruct (find_location _).
Qed.

(** X12.  The email of a parsed record has the shape of the pattern: a
    local part, an at sign, a domain, a dot and a last part, none of them
    empty; the local part and the domain are made of word characters, dots
    and hyphens, the last part of word characters. *)
Theorem email_shape text :
  ∃ r, parse_text U text = Ok r
       ∧ ∀ g, contact r !! "email" = Some g →
           ∃ local domain tld,
             g = local ++ [64%N] ++ domain ++ [46%N] ++ tld
             ∧ local ≠ [] ∧ domain ≠ [] ∧ tld ≠ []
             ∧ Forall (fun c => word_dot_hyphen U c = true) local
             ∧ Forall (fun c => word_dot_hyphen U c = true) domain
             ∧ Forall (fun c => isword U c = true) tld.
Proof.
  rewrite parse_text_eq. eexists. split; [done|].
  cbn [parsed_record contact __init__ resume_data]. intros g Hg.
  apply contact_of_email, search_in_lang in Hg.
  destruct Hg as (local & r1 & -> & Hl & _ & Hlocal & Hg).
  destruct Hg as (at_ & r2 & -> & Hat1 & Hat2 & Hat & Hg).
  destruct Hg as (domain & r3 & -> & Hd & _ & Hdomain & Hg).
  destruct Hg as (dot & r4 & -> & Hdot1 & Hdot2 & Hdot & Hg).
  destruct Hg as (tld & r5 & -> & Ht & _ & Htld & ->).
  destruct (run_of_one (chr 64) at_ Hat1 Hat2) as [c ->].
  destruct (run_of_one (chr 46) dot Hdot1 Hdot2) as [d ->].
  apply Forall_cons in Hat as [Hc _]. apply Forall_cons in Hdot as [Hd' _].
  cbn [cls one] in Hc, Hd'. unfold chr in Hc, Hd'.
  apply N.eqb_eq in Hc, Hd'. subst c d.
  exists local, domain, tld. rewrite app_nil_r.
  split; [done|]. simpl in Hl, Hd, Ht.
  split; [by destruct local; [simpl in Hl; lia|]|].
  split; [by destruct domain; [simpl in Hd; lia|]|].
  split; [by destruct tld; [simpl in Ht; lia|]|]. done.
Qed.

(** X13.  The phone number of a parsed record is three digits, three digits
    and four digits, with at most one separator (whitespace, dot or hyphen)
    after each of the first two groups: ten digits in ten to twelve
    characters. *)
Theorem phone_shape text :
  ∃ r, parse_text U text = Ok r
       ∧ ∀ g, contact r !! "phone" = Some g →
           ∃ area sep1 office sep2 number,
             g = area ++ sep1 ++ office ++ sep2 ++ number
             ∧ length area = 3 ∧ length office = 3 ∧ length number = 4
             ∧ length sep1 ≤ 1 ∧ length sep2 ≤ 1
             ∧ Forall (fun c => isdecimal U c = true) (area ++ office ++ number)
             ∧ Forall (fun c => space_dot_hyphen c = true) (sep1 ++ sep2)
             ∧ 10 ≤ length g ≤ 12.
Proof.
  rewrite parse_text_eq. eexists. split; [done|].
  cbn [parsed_record contact __init__ resume_data]. intros g Hg.
  apply contact_of_phone, search_in_lang in Hg.
  destruct Hg as (area & r1 & -> & Ha1 & Ha2 & Harea & Hg).
  destruct Hg as (sep1 & r2 & -> & _ & Hs1 & Hsep1 & Hg).
  destruct Hg as (office & r3 & -> & Ho1 & Ho2 & Hoffice & Hg).
  destruct Hg as (sep2 & r4 & -> & _ & Hs2 & Hsep2 & Hg).
  destruct Hg as (number & r5 & -> & Hn1 & Hn2 & Hnumber & ->).
  cbn [rmin rmax cls times optional] in *.
  specialize (Ha2 _ eq_refl). specialize (Ho2 _ eq_refl).
  specialize (Hn2 _ eq_refl). specialize (Hs1 _ eq_refl).
  specialize (Hs2 _ eq_refl).
  exists area, sep1, office, sep2, number. rewrite app_nil_r.
  split; [done|]. split; [lia|]. split; [lia|]. split; [lia|].
  split; [done|]. split; [done|].
  split; [by rewrite !Forall_app|]. split; [by rewrite Forall_app|].
  rewrite !length_app. lia.
Qed.

Lemma find_location_elem lines g :
  find_location lines = Some g →
  ∃ line, line ∈ lines ∧ search_anchored LOCATION_RE (strip line) = Some g.
Proof.
  induction lines as [|l lines IH]; simpl; [done|].
  destruct (search_anchored LOCATION_RE (strip l)) as [g'|] eqn:E.
  - intros [= <-]. exists l. split; [apply list_elem_of_here | done].
  - intros H. destruct (IH H) as (line & Hin & Hline).
    exists line. split; [by apply list_elem_of_further | done].
Qed.

(** X14.  The location of a parsed record is one of the first ten lines of
    the document, trimmed, and it reads: letters and whitespace, a comma,
    whitespace, and two or more letters and whitespace. *)
Theorem location_shape text :
  ∃ r, parse_text U text = Ok r
       ∧ ∀ g, contact r !! "location" = Some g →
           (∃ line, line ∈ take 10 (split_lines text) ∧ g = strip line)
           ∧ ∃ city gap region,
               g = city ++ [44%N] ++ gap ++ region
               ∧ city ≠ [] ∧ gap ≠ [] ∧ 2 ≤ length region
               ∧ Forall (fun c => letter_or_space c = true) (city ++ region)
               ∧ Forall (fun c => isspace c = true) gap.
Proof.
  rewrite parse_text_eq. eexists. split; [done|].
  cbn [parsed_record contact __init__ resume_data]. intros g Hg.
  apply contact_of_location, find_location_elem in Hg as (line & Hin & Hg).
  pose proof (search_anchored_whole _ _ _ Hg) as Hwhole.
  split; [eauto|].
  unfold search_anchored in Hg.
  destruct (match_here LOCATION_RE dollar (strip line)) as [n|] eqn:Hm; [|done].
  injection Hg as <-. apply match_here_in_lang in Hm.
  destruct Hm as (city & r1 & -> & Hc & _ & Hcity & Hm).
  destruct Hm as (comma & r2 & -> & Hk1 & Hk2 & Hcomma & Hm).
  destruct Hm as (gap & r3 & -> & Hg1 & _ & Hgap & Hm).
  destruct Hm as (region & r4 & -> & Hr & _ & Hregion & ->).
  destruct (run_of_one (chr 44) comma Hk1 Hk2) as [c ->].
  apply Forall_cons in Hcomma as [Hc' _].
  cbn [cls one rmin at_least] in *. unfold chr in Hc'.
  apply N.eqb_eq in Hc'. subst c.
  exists city, gap, region. rewrite app_nil_r.
  split; [done|].
  split; [by destruct city; [simpl in Hc; lia|]|].
  split; [by destruct gap; [simpl in Hg1; lia|]|].
  split; [done|]. split; [by rewrite Forall_app | done].
Qed.

(** ** [parse] as a whole *)

(** X15.  Only the first ten lines are searched for the contact details:
    two documents that agree on them have the same contact mapping. *)
Theorem contact_from_first_ten_lines text1 text2 :
  take 10 (split_lines text1) = take 10 (split_lines text2) →
  ∃ r1 r2, parse_text U text1 = Ok r1 ∧ parse_text U text2 = Ok r2
           ∧ contact r1 = contact r2.
Proof.
  intros Htop. rewrite !parse_text_eq. eexists _, _.
  split; [done|]. split; [done|].
  cbn [parsed_record contact]. by rewrite Htop.
Qed.

(** X16.  The name of a parsed record is never empty and is trimmed: it is
    the first line without the whitespace around it, or the placeholder
    when that line is blank. *)
Theorem name_not_empty text :
  ∃ r, parse_text U text = Ok r
       ∧ name r ≠ [] ∧ strip (name r) = name r
       ∧ (name r = lit "Your Name"
          ∨ ∃ first rest, split_lines text = first :: rest
                          ∧ name r = strip first).
Proof.
  rewrite parse_text_eq. eexists. split; [done|].
  cbn [parsed_record name __init__ resume_data]. unfold name_of.
  destruct (split_lines text) as [|first rest]; [by split; [|split; [|left]]|].
  destruct (nonempty (strip first)) eqn:Hne.
  - split; [by apply nonempty_true|]. split; [apply strip_strip|]. eauto.
  - by split; [|split; [|left]].
Qed.

End MoreProperties.

(** * The contact block of the example *)

Section ContactBlock.
Context (U : UnicodeDB).

(** ** The joined block around one of its lines *)

Lemma join_cons (sep p : str) (rest : list str) :
  rest ≠ [] → join sep (p :: rest) = p ++ sep ++ join sep rest.
Proof. by destruct rest. Qed.

Lemma text_before_cons (a : str) (pre : list str) :
  text_before (a :: pre) = a ++ NEWLINE :: text_before pre.
Proof.
  unfold text_before. change ((a :: pre) ++ [[]]) with (a :: (pre ++ [[]])).
  rewrite join_cons; [done | by destruct pre].
Qed.

Lemma join_split (pre : list str) (l : str) (post : list str) :
  join [NEWLINE] (pre ++ l :: post)
  = text_before pre ++ l
    ++ match post with [] => [] | _ :: _ => NEWLINE :: join [NEWLINE] post end.
Proof.
  induction pre as [|a pre IH].
  - destruct post; simpl; [by rewrite app_nil_r | done].
  - change ((a :: pre) ++ l :: post) with (a :: (pre ++ l :: post)).
    rewrite join_cons by (by destruct pre). rewrite IH, text_before_cons.
    simpl. by rewrite <- app_assoc.
Qed.

Lemma text_before_Forall (P : char → Prop) (pre : list str) :
  Forall (Forall P) pre → P NEWLINE → Forall P (text_before pre).
Proof.
  intros Hpre Hnl. induction Hpre as [|a pre Ha _ IH]; [constructor|].
  rewrite text_before_cons. apply Forall_app. split; [done|]. by constructor.
Qed.

Lemma text_before_app (pre : list str) (l : str) :
  text_before (pre ++ [l]) = text_before pre ++ l ++ [NEWLINE].
Proof.
  induction pre as [|a pre IH]; [done|].
  change ((a :: pre) ++ [l]) with (a :: (pre ++ [l])).
  rewrite !text_before_cons, IH. simpl. by rewrite <- app_assoc.
Qed.

(** The text before a line is empty or ends in a newline. *)
Lemma text_before_end (pre : list str) :
  text_before pre = [] ∨ ∃ init, text_before pre = init ++ [NEWLINE].
Proof.
  destruct pre as [|a pre _] using rev_ind; [by left | right].
  rewrite text_before_app. exists (text_before pre ++ a).
  by rewrite <- app_assoc.
Qed.

(** ** The first match wins *)

Lemma search_first (re : list atom) (s : str) (n m : nat) :
  no_match_before re s n →
  match_here re anywhere (drop n s) = Some m →
  search re s = Some (take m (drop n s)).
Proof.
  revert s. induction n as [|n IH]; intros s Hbefore Hm.
  - rewrite drop_0 in *. destruct s; simpl; by rewrite Hm.
  - pose proof (Hbefore 0 ltac:(lia)) as H0. rewrite drop_0 in H0.
    destruct s as [|c s]; [simpl in Hm; congruence|].
    simpl. rewrite H0. apply IH; [|done].
    intros k Hk. apply (Hbefore (S k)). lia.
Qed.

(** A match starts with a character of the class of its first atom. *)
Lemma no_match_before_first (a : atom) (re : list atom) (tb rest : str) :
  1 ≤ rmin a →
  Forall (fun c => cls a c = false) tb →
  no_match_before (a :: re) (tb ++ rest) (length tb).
Proof.
  intros Hmin Htb k Hk.
  destruct (match_here (a :: re) anywhere (drop k (tb ++ rest))) as [m|] eqn:E;
    [exfalso | done].
  apply match_here_in_lang in E as (run & rest' & Heq & Hlo & _ & Hrun & _).
  rewrite drop_app_le in Heq by lia.
  destruct (drop k tb) as [|c t] eqn:Hdrop.
  { apply (f_equal length) in Hdrop. rewrite length_drop in Hdrop.
    simpl in Hdrop. lia. }
  assert (Hc : c ∈ tb).
  { apply (subseteq_drop k tb). rewrite Hdrop. apply list_elem_of_here. }
  rewrite Forall_forall in Htb. specialize (Htb c Hc).
  destruct run as [|r run]; [simpl in Hlo; lia|].
  apply Forall_cons in Hrun as [Hr _].
  destruct m as [|m]; [done|]. simpl in Heq. injection Heq as -> _. congruence.
Qed.

(** A run of a class followed by the character [x] does not start in a text
    without [x] that holds a character outside the class. *)
Lemma run_blocked (P : char → bool) (x : char) (t rest run post : str) (m : nat) :
  take m (t ++ rest) = run ++ x :: post →
  Forall (fun c => P c = true) run →
  Forall (fun c => c ≠ x) t →
  Exists (fun c => P c = false) t →
  False.
Proof.
  revert m run. induction t as [|c t IH]; intros m run Heq Hrun Ht Hex.
  - by apply Exists_nil in Hex.
  - destruct m as [|m]; [by destruct run|]. simpl in Heq.
    apply Forall_cons in Ht as [Hc Ht].
    destruct run as [|r run]; simpl in Heq.
    + injection Heq as -> _. done.
    + injection Heq as -> Heq. apply Forall_cons in Hrun as [Hr Hrun].
      apply Exists_cons in Hex as [Hex|Hex]; [congruence|].
      by apply (IH m run).
Qed.

(** No email match starts in lines without an at sign: the local part does
    not go over the end of a line. *)
Lemma no_email_before (pre : list str) (rest : str) :
  Forall (Forall (fun c => c ≠ 64%N)) pre →
  no_match_before (EMAIL_RE U) (text_before pre ++ rest)
    (length (text_before pre)).
Proof.
  intros Hpre k Hk.
  destruct (match_here (EMAIL_RE U) anywhere
              (drop k (text_before pre ++ rest))) as [m|] eqn:E;
    [exfalso | done].
  apply match_here_in_lang in E as (local & r1 & Heq & _ & _ & Hlocal & Hg).
  destruct Hg as (at_ & r2 & -> & Hat1 & Hat2 & Hat & _).
  destruct (run_of_one (chr 64) at_ Hat1 Hat2) as [c ->].
  apply Forall_cons in Hat as [Hc _]. cbn [cls one] in Hc. unfold chr in Hc.
  apply N.eqb_eq in Hc. subst c.
  rewrite drop_app_le in Heq by lia.
  destruct (text_before_end pre) as [Hnil | [init Hinit]].
  { rewrite Hnil in Hk. simpl in Hk. lia. }
  apply (run_blocked (word_dot_hyphen U) 64%N _ _ _ _ _ Heq Hlocal).
  - apply Forall_drop, text_before_Forall; [done | by compute].
  - rewrite Hinit in *. rewrite length_app in Hk. simpl in Hk.
    rewrite drop_app_le by lia. apply Exists_app. right.
    by apply Exists_cons_hd.
Qed.

(** A line without a comma is no location. *)
Lemma no_comma_no_location (l : str) :
  Forall (fun c => c ≠ 44%N) l →
  search_anchored LOCATION_RE (strip l) = None.
Proof.
  intros Hl. unfold search_anchored.
  destruct (match_here LOCATION_RE dollar (strip l)) as [n|] eqn:E; [exfalso | done].
  apply match_here_in_lang in E as (city & r1 & Heq & _ & _ & _ & Hg).
  destruct Hg as (comma & r2 & -> & Hk1 & Hk2 & Hcomma & _).
  destruct (run_of_one (chr 44) comma Hk1 Hk2) as [c ->].
  apply Forall_cons in Hcomma as [Hc _]. cbn [cls one] in Hc. unfold chr in Hc.
  apply N.eqb_eq in Hc. subst c.
  apply (strip_Forall _ l) in Hl. apply Forall_take with (n := n) in Hl.
  rewrite Heq in Hl.
  apply Forall_app in Hl as [_ Hl]. by apply Forall_cons in Hl as [Hl _].
Qed.

(** ** The three lines of the example *)

Lemma email_example_here (post : list str) :
  match_here (EMAIL_RE U) anywhere
    (lit "jane@x.com"
     ++ match post with [] => [] | _ :: _ => NEWLINE :: join [NEWLINE] post end)
  = Some 10.
Proof. destruct post; reflexivity. Qed.

Lemma phone_example_here (rest : str) :
  match_here (PHONE_RE U) anywhere (lit "555-123-4567" ++ rest) = Some 12.
Proof. destruct rest; reflexivity. Qed.

Lemma contact_example_found_first (top pe qe pp qp pl ql : list str) :
  top = pe ++ lit "jane@x.com" :: qe →
  top = pp ++ lit "555-123-4567" :: qp →
  top = pl ++ lit "Austin, TX" :: ql →
  no_match_before (EMAIL_RE U) (join [NEWLINE] top) (length (text_before pe)) →
  no_match_before (PHONE_RE U) (join [NEWLINE] top) (length (text_before pp)) →
  Forall (fun l => search_anchored LOCATION_RE (strip l) = None) pl →
  contact_of U top ∅ = contact_example_found.
Proof.
  intros He Hp Hl Hemail Hphone Hloc.
  assert (E1 : search (EMAIL_RE U) (join [NEWLINE] top) = Some (lit "jane@x.com")).
  { rewrite (search_first _ _ _ 10 Hemail); rewrite He, join_split, drop_app_length.
    - by rewrite take_app_length'.
    - apply email_example_here. }
  assert (E2 : search (PHONE_RE U) (join [NEWLINE] top) = Some (lit "555-123-4567")).
  { rewrite (search_first _ _ _ 12 Hphone); rewrite Hp, join_split, drop_app_length.
    - by rewrite take_app_length'.
    - apply phone_example_here. }
  assert (E3 : find_location top = Some (lit "Austin, TX")).
  { rewrite Hl. rewrite (find_location_first pl (lit "Austin, TX") ql Hloc);
      [done | by eexists]. }
  unfold contact_of. cbv zeta. rewrite E1, E2, E3. reflexivity.
Qed.

(** C6 (as amended).  When the lines given to the contact extraction, the
    first ten lines of a document, contain the lines "jane@x.com",
    "555-123-4567" and "Austin, TX", the extraction yields exactly that
    email, phone and location provided that no match of the email pattern
    and no match of the phone pattern starts earlier in the joined block
    and that no earlier line matches the location pattern as a whole.  This
    is so when the three lines follow lines without an at sign, a digit and
    a comma, or no line at all.  In general "email" and "phone" get the
    first match of their pattern in the joined block, the one with no match
    starting before it, and "location" gets the trimmed text of the first
    line that matches as a whole, whatever the lines after it are. *)
Theorem contact_example_extracted :
  (∀ top pe qe pp qp pl ql : list str,
     top = pe ++ lit "jane@x.com" :: qe →
     top = pp ++ lit "555-123-4567" :: qp →
     top = pl ++ lit "Austin, TX" :: ql →
     no_match_before (EMAIL_RE U) (join [NEWLINE] top) (length (text_before pe)) →
     no_match_before (PHONE_RE U) (join [NEWLINE] top) (length (text_before pp)) →
     Forall (fun l => search_anchored LOCATION_RE (strip l) = None) pl →
     (∀ f, contact (resume_data (_extract_contact_info U (__init__ f) top))
           = contact_example_found)
     ∧ (∀ text, take 10 (split_lines text) = top →
          ∃ r, parse_text U text = Ok r ∧ contact r = contact_example_found))
  ∧ (∀ (text : str) (pre post : list str),
       take 10 (split_lines text) = pre ++ contact_example ++ post →
       Forall (Forall (fun c => c ≠ 64%N ∧ isdecimal U c = false ∧ c ≠ 44%N))
         pre →
       ∃ r, parse_text U text = Ok r ∧ contact r = contact_example_found)
  ∧ (∀ self top_lines,
       let before := contact (resume_data self) in
       let after := contact (resume_data (_extract_contact_info U self top_lines)) in
       let top_text := join [NEWLINE] top_lines in
       after !! "email"
         = from_option Some (before !! "email") (search (EMAIL_RE U) top_text)
       ∧ after !! "phone"
         = from_option Some (before !! "phone") (search (PHONE_RE U) top_text)
       ∧ after !! "location"
         = from_option Some (before !! "location") (find_location top_lines))
  ∧ (∀ (re : list atom) (s g : str),
       search re s = Some g
       ↔ ∃ pre post,
           s = pre ++ g ++ post
           ∧ match_here re anywhere (g ++ post) = Some (length g)
           ∧ no_match_before re s (length pre))
  ∧ (∀ pre line post,
       Forall (fun l => search_anchored LOCATION_RE (strip l) = None) pre →
       is_Some (search_anchored LOCATION_RE (strip line)) →
       find_location (pre ++ line :: post) = Some (strip line)).
Proof.
  assert (Hfresh : ∀ text,
            ∃ r, parse_text U text = Ok r
                 ∧ contact r = contact_of U (take 10 (split_lines text)) ∅).
  { intros text. rewrite parse_text_eq. by eexists. }
  split; [|split; [|split; [|split]]].
  - intros top pe qe pp qp pl ql He Hp Hl Hemail Hphone Hloc.
    pose proof (contact_example_found_first top pe qe pp qp pl ql
                  He Hp Hl Hemail Hphone Hloc) as Hfound.
    split; [done|].
    intros text Htop. destruct (Hfresh text) as (r & Hr & Hc).
    exists r. split; [done|]. by rewrite Hc, Htop.
  - intros text pre post Htop Hpre.
    destruct (Hfresh text) as (r & Hr & Hc). exists r. split; [done|].
    rewrite Hc, Htop. unfold contact_example.
    apply (contact_example_found_first _
             pre (lit "555-123-4567" :: lit "Austin, TX" :: post)
             (pre ++ [lit "jane@x.com"]) (lit "Austin, TX" :: post)
             (pre ++ [lit "jane@x.com"; lit "555-123-4567"]) post).
    + done.
    + by rewrite <- app_assoc.
    + by rewrite <- app_assoc.
    + change (pre ++ [lit "jane@x.com"; lit "555-123-4567"; lit "Austin, TX"]
                ++ post)
        with (pre ++ lit "jane@x.com"
                :: (lit "555-123-4567" :: lit "Austin, TX" :: post)).
      rewrite join_split. apply no_email_before.
      eapply Forall_impl; [exact Hpre|]. intros l Hl.
      eapply Forall_impl; [exact Hl|]. by intros c (? & _ & _).
    + replace (pre ++ [lit "jane@x.com"; lit "555-123-4567"; lit "Austin, TX"]
                 ++ post)
        with ((pre ++ [lit "jane@x.com"]) ++ lit "555-123-4567"
                :: (lit "Austin, TX" :: post))
        by (by rewrite <- app_assoc).
      rewrite join_split. unfold PHONE_RE.
      apply no_match_before_first; [simpl; lia|].
      apply text_before_Forall; [|done].
      apply Forall_app. split; [|by repeat constructor].
      eapply Forall_impl; [exact Hpre|]. intros l Hl.
      eapply Forall_impl; [exact Hl|]. by intros c (_ & ? & _).
    + apply Forall_app. split; [|by repeat constructor].
      eapply Forall_impl; [exact Hpre|]. intros l Hl.
      apply no_comma_no_location.
      eapply Forall_impl; [exact Hl|]. by intros c (_ & _ & ?).
  - intros self top_lines before after top_text. subst before after top_text.
    unfold _extract_contact_info. cbv zeta. cbn [resume_data set_resume_data
      set_contact contact].
    rewrite !lookup_set_if_found.
    repeat split; repeat (case_decide; try discriminate); done.
  - intros re s g. split; [apply search_leftmost|].
    intros (pre & post & -> & Hm & Hbefore).
    rewrite (search_first _ _ (length pre) (length g) Hbefore);
      rewrite drop_app_length; [|done].
    by rewrite take_app_length.
  - apply find_location_first.
Qed.

End ContactBlock.

(** * Properties of the generator *)

(** ** Grouping *)

Lemma elem_of_first_occurrences x l : x ∈ first_occurrences l ↔ x ∈ l.
Proof.
  induction l as [|y l IH]; simpl; [done|].
  rewrite !elem_of_cons, <- IH. split.
  - intros [?|Hin]; [auto|]. right.
    by apply list_elem_of_In, List.filter_In in Hin as [?%list_elem_of_In _].
  - intros [?|Hin]; [auto|]. destruct (decide (x = y)) as [|Hne]; [auto|].
    right. apply list_elem_of_In, List.filter_In.
    split; [by apply list_elem_of_In|]. by rewrite bool_decide_eq_false_2.
Qed.

Lemma first_occurrences_snoc l k :
  first_occurrences (l ++ [k])
  = if bool_decide (k ∈ l) then first_occurrences l
    else first_occurrences l ++ [k].
Proof.
  induction l as [|x l IH]; simpl; [done|].
  rewrite IH. destruct (decide (k ∈ l)) as [Hin|Hin].
  - rewrite (bool_decide_eq_true_2 _ Hin).
    rewrite bool_decide_eq_true_2; [done | by apply list_elem_of_further].
  - rewrite (bool_decide_eq_false_2 _ Hin), List.filter_app. simpl.
    destruct (decide (k = x)) as [->|Hne].
    + rewrite (bool_decide_eq_true_2 (x = x)) by done. simpl.
      rewrite bool_decide_eq_true_2 by apply list_elem_of_here.
      by rewrite app_nil_r.
    + rewrite (bool_decide_eq_false_2 _ Hne). simpl.
      rewrite bool_decide_eq_false_2; [done|].
      rewrite elem_of_cons. by intros [?|?].
Qed.

Lemma first_occurrences_NoDup l : NoDup (first_occurrences l).
Proof.
  induction l as [|x l IH]; simpl; [constructor|]. constructor.
  - intros Hin. apply list_elem_of_In, List.filter_In in Hin as [_ Hx].
    by rewrite bool_decide_eq_true_2 in Hx.
  - assert (Hsub : List.filter (fun y => negb (bool_decide (y = x)))
                     (first_occurrences l) `sublist_of` first_occurrences l).
    { generalize (first_occurrences l) as k. induction k as [|y k IHk]; simpl;
        [constructor|].
      destruct (negb _); [by constructor | by apply sublist_cons]. }
    by eapply sublist_NoDup.
Qed.

Lemma items_of_snoc name pairs k v :
  items_of name (pairs ++ [(k, v)])
  = items_of name pairs ++ (if bool_decide (k = name) then [v] else []).
Proof.
  unfold items_of. rewrite List.filter_app, List.map_app. simpl.
  by destruct (bool_decide (k = name)).
Qed.

Lemma items_of_absent name pairs :
  name ∉ List.map fst pairs → items_of name pairs = [].
Proof.
  unfold items_of. induction pairs as [|[k v] pairs IH]; simpl; [done|].
  rewrite not_elem_of_cons. intros [Hne Hin].
  rewrite bool_decide_eq_false_2 by done. by apply IH.
Qed.

(** Dictionaries whose values are given by a function of the key. *)
Lemma od_contains_tabulated (f : str → list str) (ks : list str) k :
  od_contains k (List.map (fun name => (name, f name)) ks) = bool_decide (k ∈ ks).
Proof.
  unfold od_contains. induction ks as [|x ks IH]; simpl; [done|].
  rewrite IH. destruct (decide (x = k)) as [->|Hne].
  - rewrite (bool_decide_eq_true_2 (k = k)) by done.
    by rewrite (bool_decide_eq_true_2 (k ∈ k :: ks)) by apply list_elem_of_here.
  - rewrite (bool_decide_eq_false_2 _ Hne). simpl.
    apply bool_decide_ext. rewrite elem_of_cons. split; [auto|].
    by intros [?|?].
Qed.

Lemma od_get_tabulated (f : str → list str) (ks : list str) k :
  k ∈ ks → od_get k (List.map (fun name => (name, f name)) ks) = Ok (f k).
Proof.
  unfold od_get. induction ks as [|x ks IH]; simpl; [by intros ?%not_elem_of_nil|].
  destruct (decide (x = k)) as [->|Hne].
  - by rewrite bool_decide_eq_true_2.
  - rewrite (bool_decide_eq_false_2 _ Hne). rewrite elem_of_cons.
    intros [?|Hin]; [congruence | by apply IH].
Qed.

Lemma od_set_tabulated (f : str → list str) (ks : list str) k v :
  k ∈ ks →
  od_set k v (List.map (fun name => (name, f name)) ks)
  = List.map (fun name => (name, if bool_decide (name = k) then v else f name)) ks.
Proof.
  intros Hin. unfold od_set.
  rewrite od_contains_tabulated, (bool_decide_eq_true_2 _ Hin), List.map_map.
  apply List.map_ext. intros name. simpl. by destruct (bool_decide (name = k)).
Qed.

(** One pass of the loop takes the groups of the pairs seen so far to the
    groups of the pairs with one more. *)
Lemma group_loop_grouped rest done :
  group_loop rest (grouped done) = Ok (grouped (done ++ rest)).
Proof.
  revert done. induction rest as [|[k v] rest IH]; intros done; simpl.
  - by rewrite app_nil_r.
  - replace (done ++ (k, v) :: rest) with ((done ++ [(k, v)]) ++ rest)
      by (by rewrite <- app_assoc).
    rewrite <- IH. clear IH.
    assert (Hstep :
      (let d := if negb (od_contains k (grouped done))
                then od_set k [] (grouped done) else grouped done in
       do bucket <- od_get k d; Ok (od_set k (bucket ++ [v]) d))
      = Ok (grouped (done ++ [(k, v)]))).
    { unfold grouped at 1 2 3. cbv zeta.
      rewrite od_contains_tabulated.
      unfold grouped. rewrite List.map_app.
      change (List.map fst [(k, v)]) with [k]. rewrite first_occurrences_snoc.
      destruct (decide (k ∈ List.map fst done)) as [Hin|Hin].
      - assert (k ∈ first_occurrences (List.map fst done)) as Hin'
          by by apply elem_of_first_occurrences.
        rewrite (bool_decide_eq_true_2 _ Hin'), (bool_decide_eq_true_2 _ Hin).
        cbn [negb]. rewrite od_get_tabulated by done. cbn [bind].
        rewrite od_set_tabulated by done. f_equal.
        apply List.map_ext. intros name. rewrite items_of_snoc.
        destruct (decide (name = k)) as [->|Hne].
        + by rewrite !bool_decide_eq_true_2.
        + rewrite !bool_decide_eq_false_2 by congruence. by rewrite app_nil_r.
      - assert (k ∉ first_occurrences (List.map fst done)) as Hin'
          by by rewrite elem_of_first_occurrences.
        rewrite (bool_decide_eq_false_2 _ Hin'), (bool_decide_eq_false_2 _ Hin).
        cbn [negb].
        set (d := List.map (fun name => (name, items_of name done))
                    (first_occurrences (List.map fst done))).
        assert (Hcontains : od_contains k d = false).
        { unfold d. rewrite od_contains_tabulated.
          by apply bool_decide_eq_false_2. }
        assert (od_set k [] d = d ++ [(k, [])]) as ->
          by (unfold od_set; by rewrite Hcontains).
        assert (Hfind : ∀ tail,
                  List.find (fun kv : str * list str => bool_decide (kv.1 = k))
                    (d ++ (k, tail) :: []) = Some (k, tail)).
        { intros tail. unfold od_contains in Hcontains.
          induction d as [|[x b] d IHd]; simpl in *.
          - by rewrite bool_decide_eq_true_2.
          - apply orb_false_iff in Hcontains as [Hx Hd]. rewrite Hx. by apply IHd. }
        unfold od_get. rewrite Hfind. cbn [bind snd].
        unfold od_set. assert (od_contains k (d ++ [(k, [])]) = true) as ->.
        { unfold od_contains. rewrite existsb_app. simpl.
          rewrite bool_decide_eq_true_2 by done. by rewrite orb_true_r. }
        f_equal. rewrite !List.map_app. simpl.
        rewrite bool_decide_eq_true_2 by done.
        rewrite items_of_snoc, (items_of_absent k done Hin).
        rewrite bool_decide_eq_true_2 by done. f_equal.
        unfold d. rewrite List.map_map. apply List.map_ext_in.
        intros name Hname. simpl.
        assert (name ≠ k) as Hne.
        { intros ->. apply Hin', list_elem_of_In, Hname. }
        rewrite bool_decide_eq_false_2 by done.
        rewrite items_of_snoc, bool_decide_eq_false_2 by congruence.
        by rewrite app_nil_r. }
    cbv zeta in Hstep.
    destruct (od_get k _) as [bucket|e] eqn:Hget; [|done].
    simpl in Hstep. injection Hstep as Hstep. cbn [bind]. by rewrite Hstep.
Qed.

(** X17.  [_generate_certifications] cannot raise, returns the empty string
    exactly when there is no certification, and otherwise lists one group
    for each provider, in the order in which the providers first occur,
    each with the certifications of its provider in their order: no
    provider heads two groups. *)
Theorem certifications_grouped data :
  let pairs :=
    List.map (fun c => (provider c, certification c)) (certifications data) in
  ∃ html,
    _generate_certifications data = Ok html
    ∧ (html = [] ↔ certifications data = [])
    ∧ (certifications data ≠ [] →
       html = List.concat
                ([lit "<div class='section'>";
                  lit "<h2 class='section-title'>Certifications</h2>"]
                 ++ List.map cert_group (grouped pairs) ++ [lit "</div>"]))
    ∧ NoDup (List.map fst (grouped pairs)).
Proof.
  intros pairs. unfold _generate_certifications.
  assert (Hnd : NoDup (List.map fst (grouped pairs))).
  { unfold grouped. rewrite List.map_map. simpl. rewrite List.map_id.
    apply first_occurrences_NoDup. }
  destruct (certifications data) as [|c certs] eqn:Hc.
  - exists []. done.
  - fold pairs. pose proof (group_loop_grouped pairs []) as Hloop.
    change (grouped []) with (@nil (str * list str)) in Hloop.
    change ([] ++ pairs) with pairs in Hloop.
    rewrite Hloop. cbn [bind]. eexists.
    split; [done|]. split; [done|]. done.
Qed.

(** X18.  [_generate_honors_awards] cannot raise, returns the empty string
    exactly when there is no award, and otherwise lists one group for each
    organization, in the order in which the organizations first occur, each
    with the awards of its organization in their order. *)
Theorem honors_awards_grouped data :
  let pairs := List.map (fun a => (organization a, award a)) (honors_awards data) in
  ∃ html,
    _generate_honors_awards data = Ok html
    ∧ (html = [] ↔ honors_awards data = [])
    ∧ (honors_awards data ≠ [] →
       html = List.concat
                ([lit "<div class='section'>";
                  lit "<h2 class='section-title'>Honors and Awards</h2>"]
                 ++ List.map award_group (grouped pairs) ++ [lit "</div>"]))
    ∧ NoDup (List.map fst (grouped pairs)).
Proof.
  intros pairs. unfold _generate_honors_awards.
  assert (Hnd : NoDup (List.map fst (grouped pairs))).
  { unfold grouped. rewrite List.map_map. simpl. rewrite List.map_id.
    apply first_occurrences_NoDup. }
  destruct (honors_awards data) as [|a awards] eqn:Ha.
  - exists []. done.
  - fold pairs. pose proof (group_loop_grouped pairs []) as Hloop.
    change (grouped []) with (@nil (str * list str)) in Hloop.
    change ([] ++ pairs) with pairs in Hloop.
    rewrite Hloop. cbn [bind]. eexists.
    split; [done|]. split; [done|]. done.
Qed.

Lemma append_if_concat (value : option str) (item : str → str) (items : list str) :
  List.concat (append_if value item items)
  = List.concat items
    ++ match value with
       | Some v => if nonempty v then item v else []
       | None => []
       end.
Proof.
  unfold append_if. destruct value as [v|]; [|by rewrite app_nil_r].
  destruct (nonempty v); [|by rewrite app_nil_r].
  rewrite concat_app. cbn [List.concat]. by rewrite app_nil_r.
Qed.

(** X19.  When the record has a LinkedIn value that is not empty, the
    contact line holds one LinkedIn item, after the email and phone items
    and before the location item: it shows the value as it is and links to
    an address that always starts with [http], the value itself when it
    starts with [http] and the value with [https://] in front otherwise.
    The address of an address is the address itself: nothing is prefixed
    twice. *)
Theorem linkedin_href_http (data : ResumeRecord) (v : str) :
  contact data !! "linkedin" = Some v →
  v ≠ [] →
  _generate_contact_info data
  = contact_part data "email" email_item
    ++ contact_part data "phone" phone_item
    ++ linkedin_item (linkedin_href v) v
    ++ contact_part data "location" location_item
  ∧ startswith (linkedin_href v) (lit "http") = true
  ∧ (startswith v (lit "http") = true → linkedin_href v = v)
  ∧ (startswith v (lit "http") = false → linkedin_href v = lit "https://" ++ v)
  ∧ linkedin_href (linkedin_href v) = linkedin_href v.
Proof.
  intros Hv Hne.
  assert (H : startswith (linkedin_href v) (lit "http") = true).
  { unfold linkedin_href.
    destruct (startswith v (lit "http")) eqn:E; simpl; by rewrite ?E. }
  split.
  - unfold _generate_contact_info. cbv zeta. rewrite !append_if_concat, Hv.
    apply nonempty_true in Hne. rewrite Hne. cbn [List.concat app].
    unfold contact_part. by rewrite <- !app_assoc.
  - split; [done|]. split; [|split].
    + intros E. unfold linkedin_href. by rewrite E.
    + intros E. unfold linkedin_href. by rewrite E.
    + unfold linkedin_href at 1. by rewrite H.
Qed.

(** ** The generator on a parsed record *)

Section ParseThenGenerate.
Context (U : UnicodeDB).

Lemma in_lang_nonempty (a : atom) (re : list atom) (g : str) :
  in_lang (a :: re) g → 1 ≤ rmin a → nonempty g = true.
Proof.
  intros (run & rest & -> & Hlo & _) Hmin. apply nonempty_true.
  destruct run; simpl in *; [lia | done].
Qed.

Lemma append_if_found (value : option str) (item : str → str) (items : list str) :
  (∀ v, value = Some v → nonempty v = true) →
  append_if value item items = items ++ from_option (fun v => [item v]) [] value.
Proof.
  intros Hne. destruct value as [v|]; simpl; [|by rewrite app_nil_r].
  by rewrite (Hne v eq_refl).
Qed.

(** X20.  The contact line of a parsed record shows what the parser found,
    in the order email, phone, location, and nothing else: no detail found
    is left out as empty, and there is never a LinkedIn link, since the
    parser stores none. *)
Theorem parsed_contact_html text :
  ∃ r, parse_text U text = Ok r
       ∧ contact r !! "linkedin" = None
       ∧ _generate_contact_info r
         = from_option email_item [] (contact r !! "email")
           ++ from_option phone_item [] (contact r !! "phone")
           ++ from_option location_item [] (contact r !! "location").
Proof.
  rewrite parse_text_eq. eexists. split; [done|].
  cbn [parsed_record contact __init__ resume_data].
  set (c := contact_of U _ ∅).
  assert (Hlinkedin : c !! "linkedin" = None).
  { unfold c, contact_of. cbv zeta. rewrite !lookup_set_if_found.
    repeat (case_decide; try discriminate). apply lookup_empty. }
  split; [done|].
  unfold _generate_contact_info. cbv zeta. cbn [parsed_record contact]. fold c.
  rewrite Hlinkedin.
  rewrite (append_if_found (c !! "email")).
  2: { intros g Hg. apply contact_of_email, search_in_lang in Hg.
       apply (in_lang_nonempty _ _ _ Hg). simpl. lia. }
  rewrite (append_if_found (c !! "phone")).
  2: { intros g Hg. apply contact_of_phone, search_in_lang in Hg.
       apply (in_lang_nonempty _ _ _ Hg). simpl. lia. }
  cbn [append_if].
  rewrite (append_if_found (c !! "location")).
  2: { intros g Hg. apply contact_of_location, find_location_elem in Hg
         as (line & _ & Hg).
       unfold search_anchored in Hg.
       destruct (match_here LOCATION_RE dollar (strip line)) as [n|] eqn:Hm;
         [|done].
       injection Hg as <-. apply match_here_in_lang in Hm.
       apply (in_lang_nonempty _ _ _ Hm). simpl. lia. }
  rewrite !concat_app.
  assert (Hone : ∀ (f : str → str) (o : option str),
            concat (from_option (fun v => [f v]) [] o) = from_option f [] o).
  { intros f [v|]; cbn [from_option concat]; [apply app_nil_r | done]. }
  rewrite !Hone. cbn [concat app]. by rewrite <- app_assoc.
Qed.

(** X21.  A document without any section header renders no section: the
    summary, education, certifications and awards blocks are empty, and the
    experience block is the placeholder paragraph. *)
Theorem no_header_no_section_html text :
  (∀ h, h ∈ HEADERS →
        Forall (fun l => is_header U h l = false) (split_lines text)) →
  ∃ r, parse_text U text = Ok r
       ∧ _generate_summary r = []
       ∧ _generate_experience r = lit "<p>No work experience provided</p>"
       ∧ _generate_education r = []
       ∧ _generate_certifications r = Ok []
       ∧ _generate_honors_awards r = Ok [].
Proof.
  intros Habsent. rewrite parse_text_eq. eexists. split; [done|].
  assert (Hnone : ∀ h, h ∈ HEADERS → sections_of U text !! h = None).
  { intros h Hh. apply sections_absent, last_occurrence_None, Habsent, Hh. }
  unfold _generate_summary, _generate_experience, _generate_education,
    _generate_certifications, _generate_honors_awards.
  cbn [parsed_record summary experience education certifications
         honors_awards __init__ resume_data].
  rewrite !Hnone by (apply list_elem_of_In; simpl; auto 10).
  done.
Qed.

End ParseThenGenerate.

(** * Documents for the further properties *)

(** An experience section of four plain lines, two of them of more than two
    words: three jobs. *)
Lemma experience_job_count_witness :
  let first := lit "Acme Corp" in
  let rest :=
    [lit "Senior Engineer"; lit "Beta Gamma Inc"; lit "   ";
     lit "Delta Epsilon Zeta Ltd"] in
  is_plain_line ascii_only first = true
  ∧ length (List.filter (is_long_line ascii_only) rest) = 2
  ∧ ∃ j jobs,
      _parse_experience ascii_only (join [NEWLINE] (first :: rest)) = Ok (j :: jobs)
      ∧ company j = strip first
      ∧ length jobs = 2.
Proof.
  intros first rest.
  assert (H1 : split_lines (join [NEWLINE] (first :: rest)) = [] ++ first :: rest)
    by reflexivity.
  assert (H2 : Forall (fun raw => is_plain_line ascii_only raw = false) [])
    by constructor.
  assert (H3 : is_plain_line ascii_only first = true) by reflexivity.
  split; [exact H3|]. split; [reflexivity|].
  exact (experience_job_count ascii_only _ [] first rest H1 H2 H3).
Defined.

(** The bucket of [Languages] over two lines of another category. *)
Lemma skills_loop_grows_witness :
  let lines := [lit "Tools:"; lit "Git, Make"] in
  let skills : gmap str (list str) := {[ lit "Languages" := [lit "Python"] ]} in
  ∃ skills' l',
    skills_loop lines (lit "Languages") skills = Ok skills'
    ∧ skills' !! lit "Languages" = Some ([lit "Python"] ++ l').
Proof.
  intros lines skills.
  destruct (skills_loop_ok lines (lit "Languages") skills) as [skills' H].
  exists skills'.
  destruct (skills_loop_grows lines (lit "Languages") skills skills'
              (lit "Languages") [lit "Python"] H) as [l' Hl'].
  - apply lookup_singleton_eq.
  - repeat constructor.
  - by exists l'.
Defined.

(** Two documents with the same first ten lines and another eleventh. *)
Lemma contact_from_first_ten_lines_witness :
  let top :=
    [lit "Jane Doe"; lit "jane@x.com"; lit "555-123-4567"; lit "Austin, TX";
     lit "5"; lit "6"; lit "7"; lit "8"; lit "9"; lit "10"] in
  let text1 := join [NEWLINE] (top ++ [lit "other@y.org"]) in
  let text2 := join [NEWLINE] (top ++ [lit "Paris, France"]) in
  ∃ r1 r2, parse_text ascii_only text1 = Ok r1
           ∧ parse_text ascii_only text2 = Ok r2
           ∧ contact r1 = contact r2.
Proof.
  intros top text1 text2.
  assert (H1 : take 10 (split_lines text1) = top) by reflexivity.
  assert (H2 : take 10 (split_lines text2) = top) by reflexivity.
  exact (contact_from_first_ten_lines ascii_only text1 text2
           (eq_trans H1 (eq_sym H2))).
Defined.

(** A document of a name and an email address. *)
Lemma no_header_no_section_html_witness :
  let text := join [NEWLINE] [lit "Jane Doe"; lit "jane@x.com"] in
  ∃ r, parse_text ascii_only text = Ok r
       ∧ _generate_summary r = []
       ∧ _generate_experience r = lit "<p>No work experience provided</p>"
       ∧ _generate_education r = []
       ∧ _generate_certifications r = Ok []
       ∧ _generate_honors_awards r = Ok [].
Proof.
  intros text. apply (no_header_no_section_html ascii_only text).
  intros h Hh. apply list_elem_of_In in Hh. simpl in Hh.
  repeat (destruct Hh as [<-|Hh]; [repeat constructor|]). destruct Hh.
Defined.

(** ** Documents with the contact block of the example *)

(** C6, refuted as stated: in the document made of the name line
    "Smith, John" and the three lines of the example, the first ten lines
    contain the three lines, and the location is not "Austin, TX": the name
    line has the shape of a location and comes first. *)
Lemma contact_example_after_name_line :
  let text := join [NEWLINE] (lit "Smith, John" :: contact_example) in
  take 10 (split_lines text) = lit "Smith, John" :: contact_example
  ∧ ¬ ∃ U r, parse_text U text = Ok r
             ∧ contact r !! "location" = Some (lit "Austin, TX").
Proof.
  intros text. split; [reflexivity|].
  intros (U & r & Hr & Hc).
  assert (H : (match parse_text U text with
               | Ok r => contact r !! "location" | Raise _ => None end)
              = Some (lit "Smith, John"))
    by (vm_compute; reflexivity).
  rewrite Hr, Hc in H. discriminate.
Qed.

(** The block after a name line with digits, and before another location
    and another phone number. *)
Lemma contact_example_extracted_witness :
  let pre := [lit "Jane Doe 42"] in
  let post := [lit "Paris, France"; lit "555.765.4321"] in
  let top := pre ++ contact_example ++ post in
  (no_match_before (EMAIL_RE ascii_only) (join [NEWLINE] top)
     (length (text_before pre))
   ∧ no_match_before (PHONE_RE ascii_only) (join [NEWLINE] top)
       (length (text_before (pre ++ [lit "jane@x.com"])))
   ∧ Forall (fun l => search_anchored LOCATION_RE (strip l) = None)
       (pre ++ [lit "jane@x.com"; lit "555-123-4567"]))
  ∧ ∃ r, parse_text ascii_only (join [NEWLINE] top) = Ok r
         ∧ contact r = contact_example_found.
Proof.
  intros pre post top.
  assert (H1 : no_match_before (EMAIL_RE ascii_only) (join [NEWLINE] top) 12).
  { intros k Hk. do 12 (destruct k as [|k]; [reflexivity|]). lia. }
  assert (H2 : no_match_before (PHONE_RE ascii_only) (join [NEWLINE] top) 23).
  { intros k Hk. do 23 (destruct k as [|k]; [reflexivity|]). lia. }
  assert (H3 : Forall (fun l => search_anchored LOCATION_RE (strip l) = None)
                 (pre ++ [lit "jane@x.com"; lit "555-123-4567"]))
    by (repeat constructor).
  split; [exact (conj H1 (conj H2 H3))|].
  destruct (contact_example_extracted ascii_only) as [Hfirst _].
  destruct (Hfirst top
              pre (lit "555-123-4567" :: lit "Austin, TX" :: post)
              (pre ++ [lit "jane@x.com"]) (lit "Austin, TX" :: post)
              (pre ++ [lit "jane@x.com"; lit "555-123-4567"]) post
              eq_refl eq_refl eq_refl H1 H2 H3) as [_ Hdoc].
  apply Hdoc. reflexivity.
Defined.

(** A record with a LinkedIn value that has no scheme. *)
Lemma linkedin_href_http_witness :
  let v := lit "linkedin.com/in/jane" in
  let data :=
    {| name := lit "Jane Doe";
       contact := {[ "linkedin" := v ]};
       summary := []; experience := []; education := []; skills := ∅;
       certifications := []; honors_awards := [] |} in
  _generate_contact_info data
  = linkedin_item (lit "https://linkedin.com/in/jane") v
  ∧ startswith (linkedin_href v) (lit "http") = true.
Proof.
  intros v data.
  assert (H1 : contact data !! "linkedin" = Some v) by reflexivity.
  assert (H2 : v ≠ []) by discriminate.
  destruct (linkedin_href_http data v H1 H2) as (Hhtml & Hhttp & _ & Hadd & _).
  split; [|exact Hhttp].
  rewrite Hhtml, (Hadd eq_refl). reflexivity.
Defined.
